(** * Transport layer of the quantum-network simulator

    A shallow embedding of [TransportLayer] from
    [quantumnet/components/layers/transport_layer.py]: the bulk request
    [request_transmission], the single-qubit [teleportation_protocol] and the
    two ledger accessors, followed by the properties of the specification
    that concern them.

    The Python methods mutate shared objects (the hosts' memories, the EPR
    lists stored on the edges, the ledger list, the logger).  They are
    modelled by explicit state passing over a [World]; a call that raises
    keeps the mutations made before the exception, as in Python. *)

From Stdlib Require Import ZArith QArith List Lia Lqa.
From stdpp Require Import base option list gmap.

Local Open Scope Z_scope.

(** ** Numbers

    Fidelities are Python floats.  The protocol only adds, subtracts,
    multiplies, divides and compares them, and mixes them with the integer
    literals [0], [1] and [len(...)].  The embedding is written over any type
    with these operations, so that what is proved depends on the shape of the
    computation and not on a rounding mode. *)

Class Scalar (F : Type) := {
  of_int : Z -> F;
  fadd : F -> F -> F;
  fsub : F -> F -> F;
  fmul : F -> F -> F;
  fdiv : F -> F -> F;
  fle : F -> F -> bool
}.

(** Exact rational arithmetic, used to run the model. *)
#[export] Instance Scalar_Q : Scalar Q := {|
  of_int := inject_Z;
  fadd := Qplus;
  fsub := Qminus;
  fmul := Qmult;
  fdiv := Qdiv;
  fle := Qle_bool
|}.

(** [sum(xs)]: Python starts from the integer [0] and adds from the left. *)
Definition py_sum {F} `{Scalar F} (xs : list F) : F :=
  fold_left fadd xs (of_int 0).

(** The specification's words for the fidelity of a route, in exact
    arithmetic: "the arithmetic mean of all collected EPR fidelities across
    all hops (not per-hop averages -- one global mean)", that is the total
    of the fidelities divided by how many they are. *)
Fixpoint total (xs : list Q) : Q :=
  match xs with
  | [] => 0%Q
  | x :: rest => (x + total rest)%Q
  end.

Definition arithmetic_mean (xs : list Q) : Q :=
  (total xs / inject_Z (Z.of_nat (length xs)))%Q.

(** ** Data model *)

(** A route is a Python list of node identifiers. *)
Definition Route := list Z.

(** Modelled from the spec: the class [Qubit] of [quantumnet.objects] is
    declared in another module.  A qubit is an object with an identity that
    "holds a current fidelity value", read by [get_current_fidelity()]. *)
Record Qubit (F : Type) := mkQubit {
  qubit_id : Z;
  qubit_fidelity : F
}.
Arguments mkQubit {F} _ _.
Arguments qubit_id {F} _.
Arguments qubit_fidelity {F} _.

(** Modelled from the spec: the class [Epr] of [quantumnet.objects] is
    declared in another module.  An EPR pair is an object "associated with an edge"
    that "holds a current fidelity value". *)
Record Epr (F : Type) := mkEpr {
  epr_id : Z;
  epr_fidelity : F
}.
Arguments mkEpr {F} _ _.
Arguments epr_id {F} _.
Arguments epr_fidelity {F} _.

(** Modelled from the spec: the class [Network] is declared in another
    module.  "Pools of EPR Pairs are keyed by edge", an edge being an
    "unordered pair of adjacent nodes", and every endpoint "owns a Memory
    (ordered sequence of Qubits)".  An edge or a host that the maps do not
    mention has an empty pool, respectively an empty memory. *)
Record Network (F : Type) := mkNetwork {
  eprs : gmap (Z * Z) (list (Epr F));
  hosts : gmap Z (list (Qubit F))
}.
Arguments mkNetwork {F} _ _.
Arguments eprs {F} _.
Arguments hosts {F} _.

(** The key of the undirected edge between two nodes. *)
Definition edge (a b : Z) : Z * Z := (Z.min a b, Z.max a b).

Definition pool {F} (n : Network F) (a b : Z) : list (Epr F) :=
  default [] (eprs n !! edge a b).

Definition memory {F} (n : Network F) (h : Z) : list (Qubit F) :=
  default [] (hosts n !! h).

(** The dictionaries appended to [self.transmitted_qubits]: the one built by
    [request_transmission] (lines 77-81) and the one built by
    [teleportation_protocol] (lines 145-155, with ['success'] added at line
    158 or 163). *)
Inductive QubitInfo (F : Type) :=
| TransmissionInfo (route : Route) (alice_id bob_id : Z)
| TeleportInfo (alice_id bob_id : Z) (route : Route)
    (fidelity_alice fidelity_bob fidelity_route success_prob : F)
    (qubit_alice qubit_bob : Qubit F) (success : bool).
Arguments TransmissionInfo {F} _ _ _.
Arguments TeleportInfo {F} _ _ _ _ _ _ _ _ _ _.

(** The messages handed to [self.logger.log], one constructor per call site,
    carrying the values interpolated into the message. *)
Inductive LogMsg :=
| LogNoRouteInAttempt (attempt : nat)                        (* line 53 *)
| LogNoEprInAttempt (node1 node2 : Z) (attempt : nat)        (* line 65 *)
| LogTransmissionDone (num_qubits alice_id bob_id : Z)       (* line 83 *)
| LogTransmissionFailed (num_qubits alice_id bob_id : Z) (attempts : nat) (* line 86 *)
| LogNoTeleportRoute (alice_id bob_id : Z)                   (* line 112 *)
| LogNotEnoughQubits                                         (* line 120 *)
| LogNoEprOnRoute (alice_id bob_id : Z)                      (* line 137 *)
| LogTeleportSucceeded (alice_id bob_id : Z)                 (* line 161 *)
| LogTeleportFailed (alice_id bob_id : Z).                   (* line 167 *)

(** The calls made to the collaborators that own the routes and the EPR
    pools, in the order they are made, a route request together with its
    answer (what a mock of these collaborators would record). *)
Inductive Call :=
| RouteRequest (alice_id bob_id : Z) (answer : option Route)
| EprRead (node1 node2 : Z)
| EprRemove (node1 node2 : Z).

Definition is_route_request (c : Call) : bool :=
  match c with RouteRequest _ _ _ => true | _ => false end.

Definition is_epr_read (c : Call) : bool :=
  match c with EprRead _ _ => true | _ => false end.

(** How many route requests a record of calls holds. *)
Definition route_requests (cs : list Call) : nat :=
  length (filter (fun c => is_route_request c = true) cs).

(** Exceptions that escape the two methods. *)
Inductive Exn :=
| IndexError                 (* [list.pop] on an empty list *)
| NoEprAvailable (a b : Z).  (* [remove_epr] on an empty pool *)

(** Everything the transport layer reads or writes: the network, the state
    of the route provider, [self.transmitted_qubits], the logger and the
    record of the calls made. *)
Record World (F PS : Type) := mkWorld {
  network : Network F;
  provider : PS;
  transmitted_qubits : list (QubitInfo F);
  logger : list LogMsg;
  calls : list Call
}.
Arguments mkWorld {F PS} _ _ _ _ _.
Arguments network {F PS} _.
Arguments provider {F PS} _.
Arguments transmitted_qubits {F PS} _.
Arguments logger {F PS} _.
Arguments calls {F PS} _.

(** ** A state and exception monad *)

Inductive Res (A : Type) :=
| Val (a : A)
| Exc (e : Exn).
Arguments Val {A} _.
Arguments Exc {A} _.

Definition M (W A : Type) : Type := W -> Res A * W.

#[export] Instance M_ret {W} : MRet (M W) :=
  fun A a w => (Val a, w).

#[export] Instance M_bind {W} : MBind (M W) :=
  fun A B k m w =>
    match m w with
    | (Val a, w') => k a w'
    | (Exc e, w') => (Exc e, w')
    end.

(** A computation keeps the relation [R] between the world it starts in and
    the world it leaves, whether it returns or raises. *)
Definition preserves {W A} (R : W -> W -> Prop) (m : M W A) : Prop :=
  forall w, R w (m w).2.

(** The hops of a route: [(route[i], route[i+1])] for [i] in
    [range(len(route) - 1)]. *)
Fixpoint hops (route : Route) : list (Z * Z) :=
  match route with
  | [] => []
  | a :: rest =>
      match rest with
      | [] => []
      | b :: _ => (a, b) :: hops rest
      end
  end.

(** [l.pop(i)] without the returned element, for [i] in range. *)
Definition remove_at {A} (i : nat) (l : list A) : list A :=
  take i l ++ drop (S i) l.

Section TransportLayer.

Context {F : Type} `{Scalar F}.

(** The route provider ([self._network_layer]) is a collaborator with a state
    of its own, of type [PS].

    Modelled from the spec: [short_route_valid] belongs to the network
    layer, another module.  "Given two endpoint identifiers, returns a single valid path or
    no route, with internal validity criteria opaque to the core": any
    function of the provider's state and of the network, which may change
    the provider's state and leaves the network as it is. *)
Context {PS : Type}.
Variable find_route : PS -> Network F -> Z -> Z -> option Route * PS.

(** Modelled from the spec: [Network.remove_epr] is declared in another
    module.  It "removes and returns one pair, fails if pool empty".  Which
    pair of a pool it removes is left open: the pair at index
    [pick p mod length p] of the pool [p], for an arbitrary [pick]. *)
Variable pick : list (Epr F) -> nat.

Local Abbreviation W := (World F PS).

(** *** The primitive operations on the world *)

Definition set_network (n : Network F) (w : W) : W :=
  mkWorld n (provider w) (transmitted_qubits w) (logger w) (calls w).

Definition set_memory (h : Z) (m : list (Qubit F)) (w : W) : W :=
  set_network (mkNetwork (eprs (network w)) (<[h := m]> (hosts (network w)))) w.

Definition set_pool (a b : Z) (p : list (Epr F)) (w : W) : W :=
  set_network (mkNetwork (<[edge a b := p]> (eprs (network w))) (hosts (network w))) w.

Definition record_call (c : Call) (w : W) : W :=
  mkWorld (network w) (provider w) (transmitted_qubits w) (logger w) (calls w ++ [c]).

(** [self.logger.log(msg)] *)
Definition log (msg : LogMsg) : M W unit :=
  fun w => (Val tt,
    mkWorld (network w) (provider w) (transmitted_qubits w) (logger w ++ [msg]) (calls w)).

(** [self.transmitted_qubits.append(info)] *)
Definition ledger_append (info : QubitInfo F) : M W unit :=
  fun w => (Val tt,
    mkWorld (network w) (provider w) (transmitted_qubits w ++ [info]) (logger w) (calls w)).

(** [self._network_layer.short_route_valid(alice_id, bob_id)] *)
Definition short_route_valid (alice_id bob_id : Z) : M W (option Route) :=
  fun w =>
    let '(r, ps) := find_route (provider w) (network w) alice_id bob_id in
    (Val r,
     mkWorld (network w) ps (transmitted_qubits w) (logger w)
       (calls w ++ [RouteRequest alice_id bob_id r])).

(** [self._network.get_eprs_from_edge(node1, node2)] *)
Definition get_eprs_from_edge (node1 node2 : Z) : M W (list (Epr F)) :=
  fun w => (Val (pool (network w) node1 node2), record_call (EprRead node1 node2) w).

(** [self._network.remove_epr(node1, node2)] *)
Definition remove_epr (node1 node2 : Z) : M W (Epr F) :=
  fun w =>
    let w1 := record_call (EprRemove node1 node2) w in
    let p := pool (network w) node1 node2 in
    let i := (pick p mod length p)%nat in
    match p !! i with
    | None => (Exc (NoEprAvailable node1 node2), w1)
    | Some e => (Val e, set_pool node1 node2 (remove_at i p) w1)
    end.

(** [len(host.memory)], for [host = self._network.get_host(h)] *)
Definition memory_len (h : Z) : M W nat :=
  fun w => (Val (length (memory (network w) h)), w).

(** [host.memory.pop(0)] *)
Definition memory_pop_front (h : Z) : M W (Qubit F) :=
  fun w =>
    match memory (network w) h with
    | [] => (Exc IndexError, w)
    | q :: rest => (Val q, set_memory h rest w)
    end.

(** [host.memory.pop()] *)
Definition memory_pop_back (h : Z) : M W (Qubit F) :=
  fun w =>
    let m := memory (network w) h in
    match last m with
    | None => (Exc IndexError, w)
    | Some q => (Val q, set_memory h (removelast m) w)
    end.

(** [host.memory.append(q)] *)
Definition memory_append (h : Z) (q : Qubit F) : M W unit :=
  fun w => (Val tt, set_memory h (memory (network w) h ++ [q]) w).

(** *** [request_transmission] *)

Definition max_attempts : nat := 2.

(** Lines 50-55: one route request per qubit, appended to [routes]; the first
    request that yields no route logs and leaves the loop. *)
Fixpoint establish_routes (attempts : nat) (alice_id bob_id : Z) (n : nat)
    (routes : list Route) : M W (list Route) :=
  match n with
  | O => mret routes
  | S n' =>
      route ← short_route_valid alice_id bob_id;
      match route with
      | None => log (LogNoRouteInAttempt (attempts + 1)) ;; mret routes
      | Some r => establish_routes attempts alice_id bob_id n' (routes ++ [r])
      end
  end.

(** Lines 60-67: the inner loop over the hops of one route.  The result is
    the value of [success] when the loop is left. *)
Fixpoint check_hops (attempts : nat) (hs : list (Z * Z)) : M W bool :=
  match hs with
  | [] => mret true
  | (node1, node2) :: rest =>
      pairs ← get_eprs_from_edge node1 node2;
      if (length pairs <? 1)%nat
      then log (LogNoEprInAttempt node1 node2 (attempts + 1)) ;; mret false
      else check_hops attempts rest
  end.

(** Lines 59-69: the outer loop over the routes. *)
Fixpoint check_routes (attempts : nat) (routes : list Route) : M W bool :=
  match routes with
  | [] => mret true
  | route :: rest =>
      ok ← check_hops attempts (hops route);
      if (ok : bool) then check_routes attempts rest else mret false
  end.

(** Lines 48-69: the body of the [while] loop up to the test of [success]. *)
Definition batch_pass (attempts : nat) (alice_id bob_id num_qubits : Z)
    : M W (list Route * bool) :=
  routes ← establish_routes attempts alice_id bob_id (Z.to_nat num_qubits) [];
  if Z.of_nat (length routes) =? num_qubits
  then success ← check_routes attempts routes; mret (routes, success)
  else mret (routes, false).

(** Lines 47-72: [while attempts < max_attempts and not success].  Every pass
    that fails increments [attempts] and a pass that succeeds leaves the
    loop, so the recursion is on [max_attempts - attempts]. *)
Fixpoint transmission_loop (remaining attempts : nat)
    (alice_id bob_id num_qubits : Z) (routes : list Route)
    : M W (nat * list Route * bool) :=
  match remaining with
  | O => mret (attempts, routes, false)
  | S remaining' =>
      pass ← batch_pass attempts alice_id bob_id num_qubits;
      if (pass : list Route * bool).2
      then mret (attempts, pass.1, true)
      else transmission_loop remaining' (attempts + 1)
             alice_id bob_id num_qubits pass.1
  end.

(** Lines 76-82 *)
Fixpoint register_routes (alice_id bob_id : Z) (routes : list Route) : M W unit :=
  match routes with
  | [] => mret tt
  | route :: rest =>
      ledger_append (TransmissionInfo route alice_id bob_id) ;;
      register_routes alice_id bob_id rest
  end.

Definition request_transmission (alice_id bob_id num_qubits : Z) : M W bool :=
  st ← transmission_loop max_attempts 0 alice_id bob_id num_qubits [];
  let '(attempts, routes, success) := (st : nat * list Route * bool) in
  if success
  then
    register_routes alice_id bob_id routes ;;
    log (LogTransmissionDone num_qubits alice_id bob_id) ;;
    mret true
  else
    log (LogTransmissionFailed num_qubits alice_id bob_id attempts) ;;
    mret false.

(** [get_transmitted_qubits] *)
Definition get_transmitted_qubits (w : W) : list (QubitInfo F) :=
  transmitted_qubits w.

(** *** [teleportation_protocol] *)

(** Lines 131-134: the fidelities of all the pairs of every hop, in one
    list. *)
Fixpoint collect_fidelities (hs : list (Z * Z)) (fidelities : list F)
    : M W (list F) :=
  match hs with
  | [] => mret fidelities
  | (a, b) :: rest =>
      epr_pairs ← get_eprs_from_edge a b;
      collect_fidelities rest (fidelities ++ map epr_fidelity epr_pairs)
  end.

(** Lines 170-171 *)
Fixpoint remove_eprs (hs : list (Z * Z)) : M W unit :=
  match hs with
  | [] => mret tt
  | (a, b) :: rest => remove_epr a b ;; remove_eprs rest
  end.

(** Line 140 *)
Definition route_fidelity (fidelities : list F) : F :=
  fdiv (py_sum fidelities) (of_int (Z.of_nat (length fidelities))).

(** Line 143 *)
Definition success_probability (f_alice f_bob f_route : F) : F :=
  fadd (fmul (fmul f_alice f_bob) f_route)
       (fmul (fmul (fsub (of_int 1) f_alice) (fsub (of_int 1) f_bob))
             (fsub (of_int 1) f_route)).

(** Lines 123-124: [pop(0)] on the source's memory, then [pop()] on the
    destination's. *)
Definition acquire_qubits (alice_id bob_id : Z) : M W (Qubit F * Qubit F) :=
  qubit_alice ← memory_pop_front alice_id;
  qubit_bob ← memory_pop_back bob_id;
  mret (qubit_alice, qubit_bob).

(** Lines 157-167: the memories and the logger after the draw. *)
Definition settle_outcome (success : bool) (alice_id bob_id : Z)
    (qubit_alice qubit_bob : Qubit F) : M W unit :=
  if success
  then
    memory_append bob_id qubit_alice ;;
    log (LogTeleportSucceeded alice_id bob_id)
  else
    memory_append alice_id qubit_alice ;;
    memory_append bob_id qubit_bob ;;
    log (LogTeleportFailed alice_id bob_id).

(** Lines 126-174: the protocol once the two qubits are taken.  The value of
    [uniform(0, 1)] at line 157 is the argument [draw]. *)
Definition teleport_qubits (draw : F) (alice_id bob_id : Z) (route : Route)
    (qubit_alice qubit_bob : Qubit F) : M W bool :=
  let f_alice := qubit_fidelity qubit_alice in
  let f_bob := qubit_fidelity qubit_bob in
  fidelities ← collect_fidelities (hops route) [];
  match fidelities with
  | [] => log (LogNoEprOnRoute alice_id bob_id) ;; mret false
  | _ :: _ =>
      let f_route := route_fidelity fidelities in
      let success_prob := success_probability f_alice f_bob f_route in
      let success := fle draw success_prob in
      settle_outcome success alice_id bob_id qubit_alice qubit_bob ;;
      remove_eprs (hops route) ;;
      ledger_append
        (TeleportInfo alice_id bob_id route f_alice f_bob f_route
           success_prob qubit_alice qubit_bob success) ;;
      mret success
  end.

(** Lines 110-174 *)
Definition teleportation_protocol (draw : F) (alice_id bob_id : Z) : M W bool :=
  route ← short_route_valid alice_id bob_id;
  match route with
  | None => log (LogNoTeleportRoute alice_id bob_id) ;; mret false
  | Some route =>
      len_alice ← memory_len alice_id;
      len_bob ← memory_len bob_id;
      if ((len_alice <? 1)%nat || (len_bob <? 1)%nat)%bool
      then log LogNotEnoughQubits ;; mret false
      else
        qubits ← acquire_qubits alice_id bob_id;
        teleport_qubits draw alice_id bob_id route
          (qubits : Qubit F * Qubit F).1 qubits.2
  end.

(** [get_teleported_qubits] *)
Definition get_teleported_qubits (w : W) : list (QubitInfo F) :=
  transmitted_qubits w.

(** *** Worlds and records of calls that the properties speak of *)

(** The requests that were answered with the routes [routes]. *)
Definition route_answers (a b : Z) (routes : list Route) : list Call :=
  map (fun r => RouteRequest a b (Some r)) routes.

(** The world after lines 76-83. *)
Definition committed (a b n : Z) (routes : list Route) (w : W) : W :=
  mkWorld (network w) (provider w)
    (transmitted_qubits w ++ map (fun r => TransmissionInfo r a b) routes)
    (logger w ++ [LogTransmissionDone n a b]) (calls w).

(** The world after line 86. *)
Definition given_up (a b n : Z) (attempts : nat) (w : W) : W :=
  mkWorld (network w) (provider w) (transmitted_qubits w)
    (logger w ++ [LogTransmissionFailed n a b attempts]) (calls w).

(** The world once the provider has answered [r] and moved to the state
    [ps] (lines 51 and 110). *)
Definition after_route_request (a b : Z) (r : option Route) (ps : PS) (w : W) : W :=
  mkWorld (network w) ps (transmitted_qubits w) (logger w)
    (calls w ++ [RouteRequest a b r]).

(** The keys of the edges that the hops of a route run over. *)
Definition hop_edges (route : Route) : list (Z * Z) :=
  map (fun h => edge h.1 h.2) (hops route).

(** All the EPR pairs found along a route: those of its first hop, then
    those of its second hop, and so on, in one list. *)
Definition route_pairs (net : Network F) (route : Route) : list (Epr F) :=
  flat_map (fun h => pool net h.1 h.2) (hops route).

(** How many EPR pairs the pools of a network hold over the edges [es]. *)
Definition pairs_on (net : Network F) (es : list (Z * Z)) : nat :=
  sum_list (map (fun e => length (default [] (eprs net !! e))) es).


(** *** Sequences of calls *)

(** A call to one of the two methods, with the value drawn at line 157 for a
    teleportation. *)
Inductive Op :=
| Transmit (alice_id bob_id num_qubits : Z)
| Teleport (draw : F) (alice_id bob_id : Z).

(** The world after a call; the value returned or the exception raised is
    dropped, the mutations made up to there are kept. *)
Definition run_op (op : Op) (w : W) : W :=
  match op with
  | Transmit alice_id bob_id num_qubits =>
      (request_transmission alice_id bob_id num_qubits w).2
  | Teleport draw alice_id bob_id =>
      (teleportation_protocol draw alice_id bob_id w).2
  end.

Definition run_ops (ops : list Op) (w : W) : W :=
  fold_left (fun w op => run_op op w) ops w.

(** The ledger, the logger and the record of calls of [w'] extend those of
    [w]. *)
Definition grows (w w' : W) : Prop :=
  transmitted_qubits w `prefix_of` transmitted_qubits w'
  /\ logger w `prefix_of` logger w'
  /\ calls w `prefix_of` calls w'.

(** From [w] to [w'] no memory has changed but those of the hosts [a] and
    [b], no pool has changed but those of the edges [es], and no pool has
    grown. *)
Definition touches_only (a b : Z) (es : list (Z * Z)) (w w' : W) : Prop :=
  (forall h, h <> a -> h <> b ->
     memory (network w') h = memory (network w) h)
  /\ (forall c d, edge c d ∉ es ->
        pool (network w') c d = pool (network w) c d)
  /\ (forall c d,
        (length (pool (network w') c d) <= length (pool (network w) c d))%nat).

End TransportLayer.

(** ** Worlds to run the model on *)

(** A provider without state that gives the same answer to every request. *)
Definition always_answer {F} (r : option Route)
    : unit -> Network F -> Z -> Z -> option Route * unit :=
  fun ps _ _ _ => (r, ps).

(** A provider that counts the requests it has served and has no route for
    the request number [k] (from 0) of every batch of [period] requests. *)
Definition fails_on {F} (k period : nat) (r : Route)
    : nat -> Network F -> Z -> Z -> option Route * nat :=
  fun served _ _ _ =>
    (if (served mod period =? k)%nat then None else Some r, S served).

(** [remove_epr] as [list.pop(-1)]. *)
Definition pick_last {F} (p : list (Epr F)) : nat := (length p - 1)%nat.

Definition qubit_a : Qubit Q := mkQubit 10 (9 # 10).
Definition qubit_b : Qubit Q := mkQubit 20 (9 # 10).
Definition qubit_c : Qubit Q := mkQubit 30 (1 # 2).
Definition epr_12 : Epr Q := mkEpr 100 (9 # 10).

(** Hosts 1 and 2 hold one qubit each; no edge holds a pair. *)
Definition net_no_epr : Network Q :=
  mkNetwork ∅ (<[1 := [qubit_a]]> (<[2 := [qubit_b]]> ∅)).

(** The same hosts; one pair on the edge 1-2 and none on the edge 2-3. *)
Definition net_one_epr : Network Q :=
  mkNetwork (<[edge 1 2 := [epr_12]]> ∅)
    (<[1 := [qubit_a]]> (<[2 := [qubit_b]]> ∅)).

(** Host 1 holds two qubits, host 3 one; one pair on each of 1-2 and 2-3. *)
Definition net_two_hops : Network Q :=
  mkNetwork (<[edge 1 2 := [epr_12]]> (<[edge 2 3 := [mkEpr 101 (1 # 2)]]> ∅))
    (<[1 := [qubit_a; qubit_c]]> (<[3 := [qubit_b]]> ∅)).

(** Host 1 holds two qubits, host 3 one; two pairs on 1-2 (fidelities 9/10
    and 1/2) and one pair on 2-3 (fidelity 1/10). *)
Definition net_three_pairs : Network Q :=
  mkNetwork
    (<[edge 1 2 := [mkEpr 100 (9 # 10); mkEpr 102 (1 # 2)]]>
       (<[edge 2 3 := [mkEpr 101 (1 # 10)]]> ∅))
    (<[1 := [qubit_a; qubit_c]]> (<[3 := [qubit_b]]> ∅)).

Definition fresh_world {F PS} (n : Network F) (ps : PS) : World F PS :=
  mkWorld n ps [] [] [].

(** ** Properties of [request_transmission] *)

Section RequestTransmission.

Context {F : Type} `{Scalar F} {PS : Type}.
Variable find_route : PS -> Network F -> Z -> Z -> option Route * PS.

Local Abbreviation W := (World F PS).

Lemma world_eta (w : W) :
  mkWorld (network w) (provider w) (transmitted_qubits w) (logger w) (calls w) = w.
Proof. by destruct w. Qed.

Lemma establish_routes_spec att a b n : forall routes (w : W),
  exists new w',
    establish_routes find_route att a b n routes w = (Val (routes ++ new), w')
    /\ network w' = network w
    /\ transmitted_qubits w' = transmitted_qubits w
    /\ (length new <= n)%nat
    /\ calls w' = calls w ++ route_answers a b new
         ++ (if decide (length new < n)%nat then [RouteRequest a b None] else [])
    /\ logger w' = logger w
         ++ (if decide (length new < n)%nat then [LogNoRouteInAttempt (att + 1)] else []).
Proof.
  induction n as [|n IH]; intros routes w.
  - exists [], w. cbn. rewrite !app_nil_r. repeat split; auto.
  - cbn. unfold mbind, M_bind, short_route_valid.
    destruct (find_route (provider w) (network w) a b) as [[r|] ps] eqn:E.
    + match goal with |- context [establish_routes _ _ _ _ _ _ ?w1] =>
        destruct (IH (routes ++ [r]) w1) as (new & w' & Hrun & Hn & Hl & Hlen & Hc & Hlog)
      end.
      exists (r :: new), w'. cbn in *.
      rewrite Hrun, <- app_assoc. cbn.
      repeat split; auto; try lia.
      * rewrite Hc, <- app_assoc. cbn.
        destruct (decide (length new < n)%nat), (decide (S (length new) < S n)%nat);
          auto; lia.
      * rewrite Hlog.
        destruct (decide (length new < n)%nat), (decide (S (length new) < S n)%nat);
          auto; lia.
    + exists [], (mkWorld (network w) ps (transmitted_qubits w)
                   (logger w ++ [LogNoRouteInAttempt (att + 1)])
                   (calls w ++ [RouteRequest a b None])).
      cbn. rewrite app_nil_r.
      destruct (decide (0 < S n)%nat); [|lia].
      repeat split; auto; lia.
Qed.

Lemma check_hops_cons att n1 n2 hs (w : W) :
  check_hops att ((n1, n2) :: hs) w =
    let w1 := record_call (EprRead n1 n2) w in
    if (length (pool (network w) n1 n2) <? 1)%nat
    then (Val false,
          mkWorld (network w1) (provider w1) (transmitted_qubits w1)
            (logger w1 ++ [LogNoEprInAttempt n1 n2 (att + 1)]) (calls w1))
    else check_hops att hs w1.
Proof.
  cbv zeta. unfold check_hops at 1; fold (check_hops (F:=F) (PS:=PS)).
  unfold mbind, M_bind, get_eprs_from_edge.
  by destruct (length (pool (network w) n1 n2) <? 1)%nat.
Qed.

Lemma check_hops_spec att hs : forall (w : W),
  exists ok reads w',
    check_hops att hs w = (Val ok, w')
    /\ network w' = network w
    /\ transmitted_qubits w' = transmitted_qubits w
    /\ calls w' = calls w ++ reads
    /\ Forall (fun c => is_epr_read c = true) reads.
Proof.
  induction hs as [|[n1 n2] hs IH]; intros w.
  - exists true, [], w. cbn. rewrite app_nil_r. auto.
  - rewrite check_hops_cons. cbv zeta.
    destruct (length (pool (network w) n1 n2) <? 1)%nat.
    + eexists false, [EprRead n1 n2], _. split; [reflexivity|].
      cbn. repeat split; auto.
    + destruct (IH (record_call (EprRead n1 n2) w))
        as (ok & reads & w' & Hrun & Hn & Hl & Hc & Hr).
      exists ok, (EprRead n1 n2 :: reads), w'. cbn in *.
      rewrite Hrun, Hc, <- app_assoc. repeat split; auto.
Qed.

Lemma check_routes_spec att routes : forall (w : W),
  exists ok reads w',
    check_routes att routes w = (Val ok, w')
    /\ network w' = network w
    /\ transmitted_qubits w' = transmitted_qubits w
    /\ calls w' = calls w ++ reads
    /\ Forall (fun c => is_epr_read c = true) reads.
Proof.
  induction routes as [|r routes IH]; intros w.
  - exists true, [], w. cbn. rewrite app_nil_r. auto.
  - cbn. unfold mbind, M_bind.
    destruct (check_hops_spec att (hops r) w)
      as (ok & reads & w1 & Hrun & Hn & Hl & Hc & Hr).
    rewrite Hrun. destruct ok.
    + destruct (IH w1) as (ok' & reads' & w' & Hrun' & Hn' & Hl' & Hc' & Hr').
      exists ok', (reads ++ reads'), w'.
      rewrite Hrun', Hn', Hl', Hc', Hc, <- app_assoc.
      repeat split; auto. by apply Forall_app.
    + exists false, reads, w1. repeat split; auto.
Qed.

(** One pass of the loop: the routes obtained, whether the pass succeeded,
    and what it did to the world. *)
Lemma batch_pass_spec att a b n (w : W) :
  exists routes ok tail w',
    batch_pass find_route att a b n w = (Val (routes, ok), w')
    /\ network w' = network w
    /\ transmitted_qubits w' = transmitted_qubits w
    /\ (length routes <= Z.to_nat n)%nat
    /\ calls w' = calls w ++ route_answers a b routes ++ tail
    /\ ((length routes < Z.to_nat n)%nat ->
          ok = false /\ tail = [RouteRequest a b None])
    /\ ((length routes = Z.to_nat n)%nat ->
          Forall (fun c => is_epr_read c = true) tail)
    /\ (ok = true -> Z.of_nat (length routes) = n).
Proof.
  unfold batch_pass, mbind, M_bind.
  destruct (establish_routes_spec att a b (Z.to_nat n) [] w)
    as (routes & w1 & Hrun & Hn & Hl & Hlen & Hc & _).
  cbn in Hrun. rewrite Hrun.
  destruct (Z.of_nat (length routes) =? n) eqn:E.
  - apply Z.eqb_eq in E.
    destruct (check_routes_spec att routes w1)
      as (ok & reads & w' & Hrun' & Hn' & Hl' & Hc' & Hr').
    rewrite Hrun'. exists routes, ok, reads, w'. cbn.
    destruct (decide (length routes < Z.to_nat n)%nat); [lia|].
    rewrite app_nil_r in Hc.
    rewrite Hn', Hl', Hc', Hc, <- app_assoc.
    repeat split; auto; lia.
  - apply Z.eqb_neq in E.
    exists routes, false, (if decide (length routes < Z.to_nat n)%nat
                           then [RouteRequest a b None] else []), w1.
    cbn. destruct (decide (length routes < Z.to_nat n)%nat).
    + split_and!; auto; try congruence; lia.
    + split_and!; auto; try congruence; lia.
Qed.

Lemma register_routes_spec a b routes : forall (w : W),
  register_routes a b routes w =
    (Val tt, mkWorld (network w) (provider w)
               (transmitted_qubits w ++ map (fun r => TransmissionInfo r a b) routes)
               (logger w) (calls w)).
Proof.
  induction routes as [|r routes IH]; intros w.
  - cbn. by rewrite app_nil_r, world_eta.
  - cbn. unfold mbind, M_bind, ledger_append. rewrite IH. cbn.
    by rewrite <- app_assoc.
Qed.

(** The loop unrolled: the call is one pass that succeeds, or a failed pass
    followed by one that succeeds, or two failed passes. *)
Lemma request_transmission_passes a b n (w : W) :
  exists routes1 ok1 w1,
    batch_pass find_route 0 a b n w = (Val (routes1, ok1), w1)
    /\ if ok1
       then request_transmission find_route a b n w
            = (Val true, committed a b n routes1 w1)
       else exists routes2 ok2 w2,
            batch_pass find_route 1 a b n w1 = (Val (routes2, ok2), w2)
            /\ request_transmission find_route a b n w
               = if ok2 then (Val true, committed a b n routes2 w2)
                 else (Val false, given_up a b n 2 w2).
Proof.
  destruct (batch_pass_spec 0 a b n w) as (routes1 & ok1 & t1 & w1 & Hrun1 & _).
  exists routes1, ok1, w1. split; [done|].
  unfold request_transmission, max_attempts, mbind, M_bind. cbn.
  unfold mbind, M_bind. rewrite Hrun1. cbn.
  destruct ok1; cbn.
  - unfold mbind, M_bind. rewrite register_routes_spec. done.
  - destruct (batch_pass_spec 1 a b n w1) as (routes2 & ok2 & t2 & w2 & Hrun2 & _).
    exists routes2, ok2, w2. split; [done|].
    unfold mbind, M_bind. rewrite Hrun2. cbn.
    destruct ok2; cbn.
    + unfold mbind, M_bind. rewrite register_routes_spec. done.
    + done.
Qed.


Lemma route_requests_app (l1 l2 : list Call) :
  route_requests (l1 ++ l2) = (route_requests l1 + route_requests l2)%nat.
Proof. unfold route_requests. by rewrite filter_app, length_app. Qed.

Lemma route_requests_answers a b routes :
  route_requests (route_answers a b routes) = length routes.
Proof.
  unfold route_requests, route_answers.
  induction routes as [|r routes IH]; [done|].
  cbn [map]. rewrite filter_cons_True by done. cbn [length]. by rewrite IH.
Qed.

Lemma route_requests_reads (l : list Call) :
  Forall (fun c => is_epr_read c = true) l -> route_requests l = 0%nat.
Proof.
  unfold route_requests. induction 1 as [|c l Hc _ IH]; [done|].
  destruct c; try discriminate Hc.
  by rewrite filter_cons_False.
Qed.

(** A pass makes at most one route request per qubit, and no call other than
    route requests and reads of EPR pools. *)
Lemma batch_pass_calls att a b n (w : W) :
  exists routes ok new w',
    batch_pass find_route att a b n w = (Val (routes, ok), w')
    /\ network w' = network w
    /\ transmitted_qubits w' = transmitted_qubits w
    /\ (ok = true -> Z.of_nat (length routes) = n)
    /\ calls w' = calls w ++ new
    /\ (route_requests new <= Z.to_nat n)%nat
    /\ Forall (fun c => is_route_request c || is_epr_read c = true) new.
Proof.
  destruct (batch_pass_spec att a b n w)
    as (routes & ok & tail & w' & Hrun & Hn & Hl & Hlen & Hc & Hlt & Heq & Hok).
  exists routes, ok, (route_answers a b routes ++ tail), w'.
  split_and!; auto.
  - rewrite route_requests_app, route_requests_answers.
    destruct (decide (length routes < Z.to_nat n)%nat) as [Hlt'|Hge].
    + destruct (Hlt Hlt') as [_ ->].
      change (route_requests [RouteRequest a b None]) with 1%nat. lia.
    + rewrite route_requests_reads; [lia|]. apply Heq. lia.
  - apply Forall_app. split.
    + unfold route_answers. by apply Forall_map, Forall_true.
    + destruct (decide (length routes < Z.to_nat n)%nat) as [Hlt'|Hge].
      * destruct (Hlt Hlt') as [_ ->]. by repeat constructor.
      * eapply Forall_impl; [apply Heq; lia|].
        intros c Hc'. cbn in Hc'. by rewrite Hc', orb_true_r.
Qed.

(** A pass over a provider that has no route at all. *)
Lemma batch_pass_no_route att a b n (w : W) :
  (forall ps net x y, (find_route ps net x y).1 = None) ->
  n <> 0 ->
  exists w',
    batch_pass find_route att a b n w = (Val ([], false), w')
    /\ network w' = network w
    /\ transmitted_qubits w' = transmitted_qubits w
    /\ calls w' = calls w ++ (if decide (0 < n) then [RouteRequest a b None] else [])
    /\ logger w' = logger w
         ++ (if decide (0 < n) then [LogNoRouteInAttempt (att + 1)] else []).
Proof.
  intros Hnone Hn. unfold batch_pass, mbind, M_bind.
  destruct (decide (0 < n)) as [Hpos|Hneg].
  - destruct (Z.to_nat n) as [|k] eqn:Ek; [lia|].
    cbn. unfold mbind, M_bind, short_route_valid.
    specialize (Hnone (provider w) (network w) a b).
    destruct (find_route (provider w) (network w) a b) as [r ps].
    cbn in Hnone. subst r. cbn.
    destruct (Z.of_nat 0 =? n) eqn:E; [apply Z.eqb_eq in E; lia|].
    eexists. split; [reflexivity|]. cbn. auto.
  - replace (Z.to_nat n) with 0%nat by lia. cbn.
    destruct (Z.of_nat 0 =? n) eqn:E; [apply Z.eqb_eq in E; lia|].
    exists w. rewrite !app_nil_r. auto.
Qed.

(** C10.  Zero-count edge case: a call to [request_transmission] with
    [num_qubits = 0] returns [True] on the first attempt (the logger receives
    the completion message and no message of a failed attempt), requests no
    route, reads no EPR pool (the record of calls is unchanged) and appends
    no record to the ledger. *)
Theorem request_transmission_zero_qubits a b (w : W) :
  let r := request_transmission find_route a b 0 w in
  r.1 = Val true
  /\ calls r.2 = calls w
  /\ transmitted_qubits r.2 = transmitted_qubits w
  /\ logger r.2 = logger w ++ [LogTransmissionDone 0 a b]
  /\ network r.2 = network w
  /\ provider r.2 = provider w.
Proof. cbn. repeat split. Qed.

(** C7.  The bulk feasibility check is read-only on resources: a call to
    [request_transmission] always returns, leaves the network (every EPR
    pool and every memory) as it was, calls nothing but the route provider
    and the read of EPR pools, and changes the ledger only when it returns
    [True], by appending one record per route of the batch. *)
Theorem request_transmission_read_only a b n (w : W) :
  exists ok routes new w',
    request_transmission find_route a b n w = (Val ok, w')
    /\ network w' = network w
    /\ calls w' = calls w ++ new
    /\ Forall (fun c => is_route_request c || is_epr_read c = true) new
    /\ transmitted_qubits w' =
         transmitted_qubits w
           ++ (if ok then map (fun r => TransmissionInfo r a b) routes else [])
    /\ (ok = true -> Z.of_nat (length routes) = n).
Proof.
  destruct (request_transmission_passes a b n w) as (routes1 & ok1 & w1 & Hrun1 & Hrt).
  destruct (batch_pass_calls 0 a b n w)
    as (r1 & o1 & new1 & w1' & Hrun1' & Hn1 & Hl1 & Hok1 & Hc1 & _ & Hf1).
  rewrite Hrun1 in Hrun1'. injection Hrun1' as <- <- <-.
  destruct ok1.
  - exists true, routes1, new1, (committed a b n routes1 w1).
    cbn. rewrite Hl1. split_and!; auto.
  - destruct Hrt as (routes2 & ok2 & w2 & Hrun2 & Hrt).
    destruct (batch_pass_calls 1 a b n w1)
      as (r2 & o2 & new2 & w2' & Hrun2' & Hn2 & Hl2 & Hok2 & Hc2 & _ & Hf2).
    rewrite Hrun2 in Hrun2'. injection Hrun2' as <- <- <-.
    exists ok2, routes2, (new1 ++ new2),
      (if ok2 then committed a b n routes2 w2 else given_up a b n 2 w2).
    split; [by destruct ok2|].
    assert (calls w2 = calls w ++ new1 ++ new2) by (by rewrite Hc2, Hc1, <- app_assoc).
    assert (Forall (fun c => is_route_request c || is_epr_read c = true) (new1 ++ new2))
      by (by apply Forall_app).
    destruct ok2; cbn; rewrite ?Hl2, ?Hl1, ?Hn2, ?Hn1, ?app_nil_r; split_and!; auto.
Qed.

(** C6.  All-or-nothing batch: in every pass of the loop the requests that
    were given a route come first and a request that is given no route is
    the last call of the pass, which fails (so none of the remaining routes
    is requested and no EPR pool is read); and whenever the call returns
    [False] the ledger is what it was, whatever routes the failed passes had
    obtained. *)
Theorem request_transmission_all_or_nothing a b n (w : W) :
  (forall att (w0 : W),
     exists routes ok tail w',
       batch_pass find_route att a b n w0 = (Val (routes, ok), w')
       /\ calls w' = calls w0 ++ route_answers a b routes ++ tail
       /\ (length routes <= Z.to_nat n)%nat
       /\ ((length routes < Z.to_nat n)%nat ->
             ok = false /\ tail = [RouteRequest a b None])
       /\ ((length routes = Z.to_nat n)%nat ->
             Forall (fun c => is_epr_read c = true) tail))
  /\ (forall w',
        request_transmission find_route a b n w = (Val false, w') ->
        transmitted_qubits w' = transmitted_qubits w).
Proof.
  split.
  - intros att w0.
    destruct (batch_pass_spec att a b n w0)
      as (routes & ok & tail & w' & Hrun & _ & _ & Hlen & Hc & Hlt & Heq & _).
    exists routes, ok, tail, w'. auto.
  - intros w' Hfalse.
    destruct (request_transmission_passes a b n w) as (routes1 & ok1 & w1 & Hrun1 & Hrt).
    destruct (batch_pass_spec 0 a b n w)
      as (r1 & o1 & t1 & w1' & Hrun1' & _ & Hl1 & _).
    rewrite Hrun1 in Hrun1'. injection Hrun1' as <- <- <-.
    destruct ok1; [rewrite Hrt in Hfalse; discriminate|].
    destruct Hrt as (routes2 & ok2 & w2 & Hrun2 & Hrt).
    destruct (batch_pass_spec 1 a b n w1)
      as (r2 & o2 & t2 & w2' & Hrun2' & _ & Hl2 & _).
    rewrite Hrun2 in Hrun2'. injection Hrun2' as <- <- <-.
    rewrite Hrt in Hfalse. destruct ok2; [discriminate|].
    injection Hfalse as <-. cbn. by rewrite Hl2, Hl1.
Qed.

(** C5 (amended).  Retry ceiling: every call to [request_transmission]
    returns after at most two passes over the batch (at most two route
    requests per qubit, and a [False] result is reported after exactly 2
    attempts); and when the provider has no route for any request and
    [num_qubits] is not 0, the call returns [False] after exactly 2
    attempts, each of which stops at its first route request. *)
Theorem request_transmission_retry_ceiling a b n (w : W) :
  (exists ok new w',
     request_transmission find_route a b n w = (Val ok, w')
     /\ calls w' = calls w ++ new
     /\ (route_requests new <= 2 * Z.to_nat n)%nat
     /\ (ok = false ->
           exists l, logger w' = l ++ [LogTransmissionFailed n a b 2]))
  /\ ((forall ps net x y, (find_route ps net x y).1 = None) ->
      n <> 0 ->
      exists w',
        request_transmission find_route a b n w = (Val false, w')
        /\ calls w' = calls w
             ++ (if decide (0 < n)
                 then [RouteRequest a b None; RouteRequest a b None] else [])
        /\ logger w' = logger w
             ++ (if decide (0 < n)
                 then [LogNoRouteInAttempt 1; LogNoRouteInAttempt 2] else [])
             ++ [LogTransmissionFailed n a b 2]
        /\ transmitted_qubits w' = transmitted_qubits w).
Proof.
  destruct (request_transmission_passes a b n w) as (routes1 & ok1 & w1 & Hrun1 & Hrt).
  split.
  - destruct (batch_pass_calls 0 a b n w)
      as (r1 & o1 & new1 & w1' & Hrun1' & _ & _ & _ & Hc1 & Hq1 & _).
    rewrite Hrun1 in Hrun1'. injection Hrun1' as <- <- <-.
    destruct ok1.
    + exists true, new1, (committed a b n routes1 w1).
      split_and!; auto; [lia|discriminate].
    + destruct Hrt as (routes2 & ok2 & w2 & Hrun2 & Hrt).
      destruct (batch_pass_calls 1 a b n w1)
        as (r2 & o2 & new2 & w2' & Hrun2' & _ & _ & _ & Hc2 & Hq2 & _).
      rewrite Hrun2 in Hrun2'. injection Hrun2' as <- <- <-.
      exists ok2, (new1 ++ new2),
        (if ok2 then committed a b n routes2 w2 else given_up a b n 2 w2).
      split; [by destruct ok2|].
      assert (calls w2 = calls w ++ new1 ++ new2)
        by (by rewrite Hc2, Hc1, <- app_assoc).
      rewrite route_requests_app.
      destruct ok2; cbn; split_and!; auto; try lia; try discriminate.
      intros _. by eexists.
  - intros Hnone Hn.
    destruct (batch_pass_no_route 0 a b n w Hnone Hn)
      as (w1' & Hrun1' & _ & Hl1 & Hc1 & Hlog1).
    rewrite Hrun1 in Hrun1'. injection Hrun1' as -> -> <-.
    destruct Hrt as (routes2 & ok2 & w2 & Hrun2 & Hrt).
    destruct (batch_pass_no_route 1 a b n w1 Hnone Hn)
      as (w2' & Hrun2' & _ & Hl2 & Hc2 & Hlog2).
    rewrite Hrun2 in Hrun2'. injection Hrun2' as -> -> <-.
    exists (given_up a b n 2 w2). split; [done|]. cbn.
    rewrite Hc2, Hc1, Hlog2, Hlog1, Hl2, Hl1.
    destruct (decide (0 < n)); cbn; rewrite <- ?app_assoc, ?app_nil_r; auto.
Qed.

(** *** More on the passes of the loop *)

(** The check of one route reads the pools of its hops in order and stops
    at the first empty one. *)
Lemma check_hops_reads att hs : forall (w : W),
  exists ok checked w',
    check_hops att hs w = (Val ok, w')
    /\ network w' = network w
    /\ transmitted_qubits w' = transmitted_qubits w
    /\ provider w' = provider w
    /\ calls w' = calls w ++ map (fun h => EprRead h.1 h.2) checked
    /\ if ok
       then checked = hs
            /\ Forall (fun h => pool (network w) h.1 h.2 <> []) hs
            /\ logger w' = logger w
       else exists pre h post,
            hs = pre ++ h :: post
            /\ checked = pre ++ [h]
            /\ Forall (fun h => pool (network w) h.1 h.2 <> []) pre
            /\ pool (network w) h.1 h.2 = []
            /\ logger w' = logger w ++ [LogNoEprInAttempt h.1 h.2 (att + 1)].
Proof.
  induction hs as [|[n1 n2] hs IH]; intros w.
  - exists true, [], w. cbn. rewrite app_nil_r. split_and!; auto.
  - rewrite check_hops_cons. cbv zeta.
    destruct (pool (network w) n1 n2) as [|e p] eqn:Ep.
    + cbn [length Nat.ltb Nat.leb].
      eexists false, [(n1, n2)], _. split; [reflexivity|]. cbn.
      split_and!; auto.
      exists [], (n1, n2), hs. cbn. split_and!; auto.
    + cbn [length Nat.ltb Nat.leb].
      destruct (IH (record_call (EprRead n1 n2) w))
        as (ok & checked & w' & Hrun & Hn & Hl & Hp & Hc & Hok).
      exists ok, ((n1, n2) :: checked), w'. cbn in *.
      rewrite Hrun, Hc, <- app_assoc. split_and!; auto.
      destruct ok.
      * destruct Hok as (-> & Hall & Hlog). split_and!; auto.
        constructor; [cbn; by rewrite Ep|done].
      * destruct Hok as (pre & h & post & -> & -> & Hall & Hempty & Hlog).
        exists ((n1, n2) :: pre), h, post. split_and!; auto.
        constructor; [cbn; by rewrite Ep|done].
Qed.

(** The same over all the routes of a pass. *)
Lemma check_routes_reads att routes : forall (w : W),
  exists ok checked w',
    check_routes att routes w = (Val ok, w')
    /\ network w' = network w
    /\ transmitted_qubits w' = transmitted_qubits w
    /\ provider w' = provider w
    /\ calls w' = calls w ++ map (fun h => EprRead h.1 h.2) checked
    /\ if ok
       then checked = flat_map hops routes
            /\ Forall (fun h => pool (network w) h.1 h.2 <> []) (flat_map hops routes)
            /\ logger w' = logger w
       else exists pre h post,
            flat_map hops routes = pre ++ h :: post
            /\ checked = pre ++ [h]
            /\ Forall (fun h => pool (network w) h.1 h.2 <> []) pre
            /\ pool (network w) h.1 h.2 = []
            /\ logger w' = logger w ++ [LogNoEprInAttempt h.1 h.2 (att + 1)].
Proof.
  induction routes as [|r routes IH]; intros w.
  - exists true, [], w. cbn. rewrite app_nil_r. split_and!; auto.
  - cbn [check_routes flat_map]. unfold mbind, M_bind.
    destruct (check_hops_reads att (hops r) w)
      as (ok & checked & w1 & Hrun & Hn & Hl & Hp & Hc & Hok).
    rewrite Hrun. destruct ok.
    + destruct Hok as (-> & Hall & Hlog).
      destruct (IH w1) as (ok' & checked' & w' & Hrun' & Hn' & Hl' & Hp' & Hc' & Hok').
      exists ok', (hops r ++ checked'), w'.
      rewrite Hrun', Hn', Hl', Hp', Hc', Hc, map_app, <- app_assoc, Hn.
      split_and!; auto. rewrite Hn in Hok'.
      destruct ok'.
      * destruct Hok' as (-> & Hall' & Hlog'). split_and!; auto.
        -- by apply Forall_app.
        -- by rewrite Hlog'.
      * destruct Hok' as (pre & h & post & Heq & -> & Hall' & Hempty & Hlog').
        exists (hops r ++ pre), h, post. rewrite Heq, <- !app_assoc.
        split_and!; auto.
        -- by apply Forall_app.
        -- by rewrite Hlog', Hlog.
    + destruct Hok as (pre & h & post & Heq & -> & Hall & Hempty & Hlog).
      exists false, (pre ++ [h]), w1. split_and!; auto.
      exists pre, h, (post ++ flat_map hops routes).
      rewrite Heq, <- app_assoc. split_and!; auto.
Qed.

(** A pass once more, with the pools it reads. *)
Lemma batch_pass_reads att a b n (w : W) :
  exists routes ok w',
    batch_pass find_route att a b n w = (Val (routes, ok), w')
    /\ network w' = network w
    /\ transmitted_qubits w' = transmitted_qubits w
    /\ (Z.of_nat (length routes) <> n -> ok = false)
    /\ (Z.of_nat (length routes) = n ->
        exists checked,
          calls w' = calls w ++ route_answers a b routes
                       ++ map (fun h => EprRead h.1 h.2) checked
          /\ if ok
             then checked = flat_map hops routes
                  /\ Forall (fun h => pool (network w) h.1 h.2 <> [])
                       (flat_map hops routes)
             else exists pre h post,
                  flat_map hops routes = pre ++ h :: post
                  /\ checked = pre ++ [h]
                  /\ Forall (fun h => pool (network w) h.1 h.2 <> []) pre
                  /\ pool (network w) h.1 h.2 = []).
Proof.
  unfold batch_pass, mbind, M_bind.
  destruct (establish_routes_spec att a b (Z.to_nat n) [] w)
    as (routes & w1 & Hrun & Hn & Hl & Hlen & Hc & _).
  cbn in Hrun. rewrite Hrun.
  destruct (Z.of_nat (length routes) =? n) eqn:E.
  - apply Z.eqb_eq in E.
    destruct (check_routes_reads att routes w1)
      as (ok & checked & w' & Hrun' & Hn' & Hl' & _ & Hc' & Hok).
    rewrite Hrun'. exists routes, ok, w'. cbn.
    destruct (decide (length routes < Z.to_nat n)%nat); [lia|].
    rewrite app_nil_r in Hc.
    split; [done|]. split; [congruence|]. split; [congruence|].
    split; [intros Hx; by destruct Hx|].
    intros _. exists checked. rewrite Hc', Hc, <- app_assoc. split; [done|].
    rewrite Hn in Hok. destruct ok.
    + by destruct Hok as (? & ? & _).
    + destruct Hok as (pre & h & post & ? & ? & ? & ? & _). by exists pre, h, post.
  - apply Z.eqb_neq in E. exists routes, false, w1. cbn. split_and!; auto. done.
Qed.

(** X1.  Within a pass that obtained all its routes, the pools are read hop
    by hop, route after route, and the reading stops at the first pool that
    is empty: the pass succeeds exactly when every hop of every route holds
    a pair, and otherwise the last pool read is the first empty one. *)
Theorem batch_pass_stops_at_first_empty_pool att a b n (w : W) :
  exists routes ok w',
    batch_pass find_route att a b n w = (Val (routes, ok), w')
    /\ (Z.of_nat (length routes) = n ->
        exists checked,
          calls w' = calls w ++ route_answers a b routes
                       ++ map (fun h => EprRead h.1 h.2) checked
          /\ if ok
             then checked = flat_map hops routes
                  /\ Forall (fun h => pool (network w) h.1 h.2 <> [])
                       (flat_map hops routes)
             else exists pre h post,
                  flat_map hops routes = pre ++ h :: post
                  /\ checked = pre ++ [h]
                  /\ Forall (fun h => pool (network w) h.1 h.2 <> []) pre
                  /\ pool (network w) h.1 h.2 = []).
Proof.
  destruct (batch_pass_reads att a b n w)
    as (routes & ok & w' & Hrun & _ & _ & _ & Hreads).
  by exists routes, ok, w'.
Qed.

(** What a call that returns [True] has done: the pass that succeeded and
    the calls made before it. *)
Lemma request_transmission_true a b n (w w' : W) :
  request_transmission find_route a b n w = (Val true, w') ->
  exists routes before,
    Z.of_nat (length routes) = n
    /\ network w' = network w
    /\ transmitted_qubits w' =
         transmitted_qubits w ++ map (fun r => TransmissionInfo r a b) routes
    /\ calls w' = calls w ++ before ++ route_answers a b routes
                    ++ map (fun h => EprRead h.1 h.2) (flat_map hops routes)
    /\ Forall (fun h => pool (network w) h.1 h.2 <> []) (flat_map hops routes).
Proof.
  intros Htrue.
  destruct (request_transmission_passes a b n w) as (routes1 & ok1 & w1 & Hrun1 & Hrt).
  destruct (batch_pass_reads 0 a b n w)
    as (r1 & o1 & w1' & Hrun1' & Hn1 & Hl1 & Hne1 & Hreads1).
  rewrite Hrun1 in Hrun1'. injection Hrun1' as <- <- <-.
  destruct (batch_pass_calls 0 a b n w)
    as (r1 & o1 & new1 & w1' & Hrun1' & _ & _ & _ & Hc1 & _).
  rewrite Hrun1 in Hrun1'. injection Hrun1' as <- <- <-.
  destruct ok1.
  - rewrite Hrt in Htrue. injection Htrue as <-.
    assert (Hlen : Z.of_nat (length routes1) = n).
    { destruct (decide (Z.of_nat (length routes1) = n)); [done|].
      by discriminate Hne1. }
    destruct (Hreads1 Hlen) as (checked & Hc & -> & Hall).
    exists routes1, []. cbn. rewrite Hl1. split_and!; auto.
  - destruct Hrt as (routes2 & ok2 & w2 & Hrun2 & Hrt).
    destruct (batch_pass_reads 1 a b n w1)
      as (r2 & o2 & w2' & Hrun2' & Hn2 & Hl2 & Hne2 & Hreads2).
    rewrite Hrun2 in Hrun2'. injection Hrun2' as <- <- <-.
    rewrite Hrt in Htrue. destruct ok2; [|discriminate].
    injection Htrue as <-.
    assert (Hlen : Z.of_nat (length routes2) = n).
    { destruct (decide (Z.of_nat (length routes2) = n)); [done|].
      by discriminate Hne2. }
    destruct (Hreads2 Hlen) as (checked & Hc & -> & Hall).
    exists routes2, new1. cbn. rewrite Hl2, Hl1, Hc, Hc1, <- !app_assoc, Hn2, Hn1.
    rewrite Hn1 in Hall. split_and!; auto.
Qed.

(** X2.  Feasibility: when [request_transmission] returns [True], every hop
    of every route it has recorded holds at least one EPR pair, in the
    network as the call leaves it. *)
Theorem request_transmission_routes_are_feasible a b n (w w' : W) :
  request_transmission find_route a b n w = (Val true, w') ->
  exists routes,
    transmitted_qubits w' =
      transmitted_qubits w ++ map (fun r => TransmissionInfo r a b) routes
    /\ Forall (fun r => Forall (fun h => pool (network w') h.1 h.2 <> []) (hops r))
         routes.
Proof.
  intros Htrue.
  destruct (request_transmission_true a b n w w' Htrue)
    as (routes & _ & _ & Hn & Hl & _ & Hall).
  exists routes. split; [done|]. rewrite Hn.
  clear -Hall. induction routes as [|r routes IH]; [constructor|].
  cbn [flat_map] in Hall. apply Forall_app in Hall as [Hr Hrest].
  constructor; auto.
Qed.

(** X3.  The routes recorded by a call that returns [True] are those of the
    last pass only: they are the answers to the last [num_qubits] route
    requests, in the order of the requests, and after the last of these
    requests the call has read the pool of every hop of every one of them
    and made no other call. *)
Theorem request_transmission_records_last_pass a b n (w w' : W) :
  request_transmission find_route a b n w = (Val true, w') ->
  exists routes before,
    Z.of_nat (length routes) = n
    /\ transmitted_qubits w' =
         transmitted_qubits w ++ map (fun r => TransmissionInfo r a b) routes
    /\ calls w' = calls w ++ before ++ route_answers a b routes
                    ++ map (fun h => EprRead h.1 h.2) (flat_map hops routes).
Proof.
  intros Htrue.
  destruct (request_transmission_true a b n w w' Htrue)
    as (routes & before & Hlen & _ & Hl & Hc & _).
  by exists routes, before.
Qed.

(** X4.  A negative [num_qubits]: [range] is empty, [len(routes)] cannot be
    equal to it, and the call returns [False] after 2 attempts without
    having called the route provider or read any pool; the only change is
    the message of the failure. *)
Theorem request_transmission_negative_count a b n (w : W) :
  n < 0 ->
  request_transmission find_route a b n w = (Val false, given_up a b n 2 w).
Proof.
  intros Hneg.
  assert (Hpass : forall att (w0 : W),
            batch_pass find_route att a b n w0 = (Val ([], false), w0)).
  { intros att w0. unfold batch_pass, mbind, M_bind.
    replace (Z.to_nat n) with 0%nat by lia. cbn.
    destruct (Z.of_nat 0 =? n) eqn:E; [apply Z.eqb_eq in E; lia|done]. }
  destruct (request_transmission_passes a b n w) as (routes1 & ok1 & w1 & Hrun1 & Hrt).
  rewrite Hpass in Hrun1. injection Hrun1 as <- <- <-.
  destruct Hrt as (routes2 & ok2 & w2 & Hrun2 & Hrt).
  rewrite Hpass in Hrun2. injection Hrun2 as <- <- <-.
  exact Hrt.
Qed.

Lemma establish_routes_answered att a b (net : Network F) (P : Route -> Prop) k :
  (forall ps, exists r ps', find_route ps net a b = (Some r, ps') /\ P r) ->
  forall routes (w : W),
    network w = net ->
    exists new w',
      establish_routes find_route att a b k routes w = (Val (routes ++ new), w')
      /\ length new = k
      /\ Forall P new
      /\ network w' = net
      /\ transmitted_qubits w' = transmitted_qubits w
      /\ logger w' = logger w
      /\ calls w' = calls w ++ route_answers a b new.
Proof.
  intros Hans. induction k as [|k IH]; intros routes w Hnet.
  - exists [], w. cbn. rewrite !app_nil_r. split_and!; auto.
  - cbn [establish_routes]. unfold mbind, M_bind, short_route_valid.
    destruct (Hans (provider w)) as (r & ps' & Hr & HP).
    rewrite Hnet, Hr.
    match goal with |- context [establish_routes _ _ _ _ _ _ ?w1] =>
      destruct (IH (routes ++ [r]) w1) as (new & w' & Hrun & Hlen & HPs & Hn & Hl & Hlog & Hc)
    end; [done|].
    exists (r :: new), w'. cbn in *. rewrite Hrun, <- app_assoc.
    split_and!; auto. by rewrite Hc, <- app_assoc.
Qed.

(** X5.  Success at the first attempt: over a provider that answers every
    request with a route whose hops all hold a pair, a call for
    [num_qubits >= 0] qubits returns [True] after a single pass of exactly
    [num_qubits] route requests, records these routes and logs nothing but
    the completion. *)
Theorem request_transmission_first_pass a b n (w : W) :
  0 <= n ->
  (forall ps, exists r ps',
     find_route ps (network w) a b = (Some r, ps')
     /\ Forall (fun h => pool (network w) h.1 h.2 <> []) (hops r)) ->
  exists routes w',
    request_transmission find_route a b n w = (Val true, w')
    /\ Z.of_nat (length routes) = n
    /\ transmitted_qubits w' =
         transmitted_qubits w ++ map (fun r => TransmissionInfo r a b) routes
    /\ calls w' = calls w ++ route_answers a b routes
                    ++ map (fun h => EprRead h.1 h.2) (flat_map hops routes)
    /\ logger w' = logger w ++ [LogTransmissionDone n a b].
Proof.
  intros Hn Hans.
  destruct (establish_routes_answered 0 a b (network w) _ (Z.to_nat n) Hans [] w eq_refl)
    as (routes & w1 & Hrun & Hlen & HP & Hnet & Hl & Hlog & Hc).
  cbn [app] in Hrun.
  destruct (check_routes_reads 0 routes w1)
    as (ok & checked & w2 & Hrun2 & Hn2 & Hl2 & _ & Hc2 & Hok).
  assert (Hall : Forall (fun h => pool (network w) h.1 h.2 <> []) (flat_map hops routes)).
  { clear -HP. induction routes as [|r routes IH]; [constructor|].
    apply Forall_cons in HP as [Hr Hrest]. cbn [flat_map].
    apply Forall_app. auto. }
  destruct ok.
  2:{ destruct Hok as (pre & h & post & Heq & _ & _ & Hempty & _).
      rewrite Heq in Hall. apply Forall_app in Hall as [_ Hall].
      apply Forall_cons in Hall as [Hh _]. rewrite Hnet in Hempty. done. }
  destruct Hok as (-> & _ & Hlog2).
  assert (Hpass : batch_pass find_route 0 a b n w = (Val (routes, true), w2)).
  { unfold batch_pass, mbind, M_bind. rewrite Hrun.
    replace (Z.of_nat (length routes) =? n) with true
      by (symmetry; apply Z.eqb_eq; lia).
    by rewrite Hrun2. }
  destruct (request_transmission_passes a b n w) as (r1 & o1 & w1' & Hrun1 & Hrt).
  rewrite Hpass in Hrun1. injection Hrun1 as <- <- <-.
  exists routes, (committed a b n routes w2). split; [done|]. cbn.
  rewrite Hl2, Hl, Hc2, Hc, Hlog2, Hlog, <- app_assoc.
  split_and!; auto. lia.
Qed.

End RequestTransmission.

(** ** Properties of [teleportation_protocol] *)

Section Teleportation.

Context {F : Type} `{Scalar F} {PS : Type}.
Variable find_route : PS -> Network F -> Z -> Z -> option Route * PS.
Variable pick : list (Epr F) -> nat.

Local Abbreviation W := (World F PS).

(** *** The memories and the pools under the primitive operations *)

Lemma memory_set_memory h m (w : W) h' :
  memory (network (set_memory h m w)) h'
  = if decide (h' = h) then m else memory (network w) h'.
Proof.
  unfold memory, set_memory. cbn.
  destruct (decide (h' = h)) as [->|Hne].
  - by rewrite lookup_insert_eq.
  - by rewrite lookup_insert_ne.
Qed.

Lemma pool_set_memory h m (w : W) a b :
  pool (network (set_memory h m w)) a b = pool (network w) a b.
Proof. reflexivity. Qed.

Lemma pool_set_pool a b p (w : W) c d :
  pool (network (set_pool a b p w)) c d
  = if decide (edge c d = edge a b) then p else pool (network w) c d.
Proof.
  unfold pool, set_pool. cbn.
  destruct (decide (edge c d = edge a b)) as [->|Hne].
  - by rewrite lookup_insert_eq.
  - by rewrite lookup_insert_ne.
Qed.

Lemma memory_pop_front_run h q rest (w : W) :
  memory (network w) h = q :: rest ->
  memory_pop_front h w = (Val q, set_memory h rest w).
Proof. intros E. unfold memory_pop_front. by rewrite E. Qed.

Lemma memory_pop_back_run h q m (w : W) :
  memory (network w) h = m ++ [q] ->
  memory_pop_back h w = (Val q, set_memory h m w).
Proof.
  intros E. unfold memory_pop_back. cbv zeta.
  by rewrite E, last_snoc, removelast_last.
Qed.

Lemma memory_pop_back_empty h (w : W) :
  memory (network w) h = [] ->
  memory_pop_back h w = (Exc IndexError, w).
Proof. intros E. unfold memory_pop_back. cbv zeta. by rewrite E. Qed.

(** *** The loops over the hops *)

Lemma collect_fidelities_run hs : forall acc (w : W),
  collect_fidelities hs acc w
  = (Val (acc ++ flat_map (fun h => map epr_fidelity (pool (network w) h.1 h.2)) hs),
     mkWorld (network w) (provider w) (transmitted_qubits w) (logger w)
       (calls w ++ map (fun h => EprRead h.1 h.2) hs)).
Proof.
  induction hs as [|[a b] hs IH]; intros acc w.
  - cbn. by rewrite !app_nil_r, world_eta.
  - cbn [collect_fidelities]. unfold mbind, M_bind, get_eprs_from_edge.
    rewrite IH. cbn. by rewrite <- !app_assoc.
Qed.

Lemma flat_map_fidelities (net : Network F) hs :
  flat_map (fun h => map epr_fidelity (pool net h.1 h.2)) hs
  = map epr_fidelity (flat_map (fun h => pool net h.1 h.2) hs).
Proof.
  induction hs as [|h hs IH]; [done|].
  cbn. by rewrite map_app, IH.
Qed.

(** Whether it returns or raises, the removal loop touches nothing but the
    EPR pools and the record of calls. *)
Lemma remove_eprs_frame hs : forall (w : W),
  let r := remove_eprs pick hs w in
  hosts (network r.2) = hosts (network w)
  /\ transmitted_qubits r.2 = transmitted_qubits w
  /\ logger r.2 = logger w
  /\ provider r.2 = provider w.
Proof.
  induction hs as [|[a b] hs IH]; intros w; [done|].
  cbn [remove_eprs]. unfold mbind, M_bind, remove_epr. cbv zeta.
  destruct (pool (network w) a b !! _) as [e|]; [|done].
  match goal with |- context [remove_eprs _ _ ?w1] =>
    destruct (IH w1) as (Hh & Hl & Hlog & Hp)
  end.
  cbn in *. destruct (remove_eprs pick hs _) as [[[]|e'] w']; cbn in *; auto.
Qed.

(** Over hops that run over distinct edges whose pools are not empty, the
    removal loop returns, having taken one pair out of the pool of every hop
    and none out of any other pool. *)
Lemma remove_eprs_run hs : forall (w : W),
  NoDup (map (fun h => edge h.1 h.2) hs) ->
  (forall h, h ∈ hs -> pool (network w) h.1 h.2 <> []) ->
  exists w',
    remove_eprs pick hs w = (Val tt, w')
    /\ calls w' = calls w ++ map (fun h => EprRemove h.1 h.2) hs
    /\ forall c d,
         pool (network w') c d
         = let p := pool (network w) c d in
           if decide (edge c d ∈ map (fun h => edge h.1 h.2) hs)
           then remove_at (pick p mod length p) p else p.
Proof.
  induction hs as [|[a b] hs IH]; intros w Hnd Hne.
  - exists w. cbn. rewrite app_nil_r. split_and!; auto.
  - cbn [map fst snd] in Hnd. apply NoDup_cons in Hnd as [Hnotin Hnd].
    cbn [remove_eprs]. unfold mbind, M_bind, remove_epr. cbv zeta.
    assert (Hp : pool (network w) a b <> []) by (apply (Hne (a, b)); left).
    set (p := pool (network w) a b) in *.
    assert (Hi : (pick p mod length p < length p)%nat).
    { apply Nat.mod_upper_bound. destruct p; [done|]. cbn; lia. }
    destruct (lookup_lt_is_Some_2 p _ Hi) as [e He]. rewrite He.
    set (w1 := set_pool a b _ _).
    destruct (IH w1 Hnd) as (w' & Hrun & Hc & Hpool).
    { intros h Hh. unfold w1. rewrite pool_set_pool.
      destruct (decide _) as [Heq|_].
      - exfalso. apply Hnotin. rewrite <- Heq.
        apply (list_elem_of_fmap_2 (fun h => edge h.1 h.2) _ _ Hh).
      - apply Hne. by right. }
    exists w'. rewrite Hrun. split; [done|]. split.
    + rewrite Hc. unfold w1. cbn. by rewrite <- app_assoc.
    + intros c d. rewrite Hpool. cbv zeta. unfold w1. rewrite pool_set_pool.
      cbn [map fst snd].
      destruct (decide (edge c d = edge a b)) as [Heq|Hneq].
      * destruct (decide (edge c d ∈ map _ hs)) as [Hin|_].
        { exfalso. apply Hnotin. by rewrite <- Heq. }
        destruct (decide (edge c d ∈ edge a b :: _)) as [_|Hout].
        -- unfold pool, p. by rewrite Heq.
        -- exfalso. apply Hout. rewrite Heq. left.
      * unfold record_call. cbn [network].
        destruct (decide (edge c d ∈ map _ hs)) as [Hin|Hnin];
          destruct (decide (edge c d ∈ edge a b :: _)) as [Hin'|Hnin']; auto.
        -- exfalso. apply Hnin'. by right.
        -- exfalso. apply elem_of_cons in Hin' as [?|?]; auto.
Qed.


(** *** The steps of the protocol *)

Lemma snoc_tail {A} (x y : A) (l m : list A) :
  x :: l = m ++ [y] -> l <> [] -> exists m', l = m' ++ [y].
Proof.
  destruct m as [|z m]; cbn; intros E Hl.
  - injection E as _ ->. done.
  - injection E as _ ->. by exists m.
Qed.

(** Lines 110-124 when a route is found and both memories hold a qubit: the
    protocol goes on with the first qubit of the source and the last qubit
    of the destination, both out of their memories. *)
Lemma teleportation_protocol_acquire draw a b (w : W) route ps qa ma qb mb :
  find_route (provider w) (network w) a b = (Some route, ps) ->
  memory (network w) a = qa :: ma ->
  memory (network w) b = mb ++ [qb] ->
  (a = b -> ma <> []) ->
  let w1 := set_memory a ma (after_route_request a b (Some route) ps w) in
  exists mb',
    memory (network w1) b = mb' ++ [qb]
    /\ teleportation_protocol find_route pick draw a b w
       = teleport_qubits pick draw a b route qa qb (set_memory b mb' w1).
Proof.
  intros Hroute Ha Hb Halias w1.
  assert (Hb1 : exists mb', memory (network w1) b = mb' ++ [qb]).
  { unfold w1. rewrite memory_set_memory.
    destruct (decide (b = a)) as [->|Hne].
    - rewrite Ha in Hb. by apply (snoc_tail _ _ _ _ Hb), Halias.
    - by exists mb. }
  destruct Hb1 as [mb' Hb1]. exists mb'. split; [done|].
  unfold teleportation_protocol, mbind, M_bind, short_route_valid, memory_len.
  rewrite Hroute. cbn [network]. rewrite Ha, Hb.
  replace (length (mb ++ [qb]) <? 1)%nat with false by (by destruct mb).
  cbn [length Nat.ltb Nat.leb orb].
  unfold acquire_qubits, mbind, M_bind.
  rewrite (memory_pop_front_run a qa ma) by exact Ha.
  fold (after_route_request a b (Some route) ps w). fold w1.
  by rewrite (memory_pop_back_run b qb mb') by exact Hb1.
Qed.

Lemma settle_outcome_run ok a b qa qb (w : W) :
  exists w',
    settle_outcome ok a b qa qb w = (Val tt, w')
    /\ eprs (network w') = eprs (network w)
    /\ provider w' = provider w
    /\ transmitted_qubits w' = transmitted_qubits w
    /\ calls w' = calls w
    /\ logger w' = logger w
         ++ [if ok then LogTeleportSucceeded a b else LogTeleportFailed a b].
Proof. destruct ok; eexists; (split; [reflexivity|]); cbn; auto. Qed.

Lemma pool_same_eprs (n n' : Network F) a b :
  eprs n' = eprs n -> pool n' a b = pool n a b.
Proof. unfold pool. by intros ->. Qed.

(** Lines 126-174 over a route along which at least one pair is found. *)
Lemma teleport_qubits_run draw a b route qa qb (w : W) :
  route_pairs (network w) route <> [] ->
  let fids := map epr_fidelity (route_pairs (network w) route) in
  let f_route := route_fidelity fids in
  let p := success_probability (qubit_fidelity qa) (qubit_fidelity qb) f_route in
  let r := teleport_qubits pick draw a b route qa qb w in
  exists w1 w2,
    eprs (network w1) = eprs (network w)
    /\ provider w1 = provider w
    /\ transmitted_qubits w1 = transmitted_qubits w
    /\ calls w1 = calls w ++ map (fun h => EprRead h.1 h.2) (hops route)
    /\ logger w1 = logger w
         ++ [if fle draw p then LogTeleportSucceeded a b else LogTeleportFailed a b]
    /\ (settle_outcome (fle draw p) a b qa qb
          (mkWorld (network w) (provider w) (transmitted_qubits w) (logger w)
             (calls w1))).2 = w1
    /\ (remove_eprs pick (hops route) w1).2 = w2
    /\ match (remove_eprs pick (hops route) w1).1 with
       | Val _ =>
           r = (Val (fle draw p),
                mkWorld (network w2) (provider w2)
                  (transmitted_qubits w2
                     ++ [TeleportInfo a b route (qubit_fidelity qa)
                           (qubit_fidelity qb) f_route p qa qb (fle draw p)])
                  (logger w2) (calls w2))
       | Exc e => r = (Exc e, w2)
       end.
Proof.
  intros Hne fids f_route p r.
  unfold r, teleport_qubits, mbind, M_bind.
  rewrite collect_fidelities_run, flat_map_fidelities. cbn [app].
  fold (route_pairs (network w) route). fold fids.
  destruct fids as [|x xs] eqn:Efids.
  { apply map_eq_nil in Efids. done. }
  fold f_route. fold p.
  match goal with |- context [settle_outcome _ _ _ _ _ ?w0] =>
    destruct (settle_outcome_run (fle draw p) a b qa qb w0)
      as (w1 & Hrun & He & Hp & Hl & Hc & Hlog)
  end.
  rewrite Hrun. exists w1, (remove_eprs pick (hops route) w1).2.
  cbn [calls logger network provider transmitted_qubits] in *.
  rewrite Hc, Hrun. split_and!; auto.
  destruct (remove_eprs pick (hops route) w1) as [[[]|e] w2]; done.
Qed.


(** C8.  Asymmetric qubit acquisition: when a route is found and both
    memories hold a qubit, the protocol goes on (lines 126-174) with the
    qubit at the front of the source's memory and the qubit at the back of
    the destination's memory, both taken out of their memories and nothing
    else changed.  (When source and destination are one host that holds a
    single qubit, that qubit is taken from the front and the second [pop]
    raises.) *)
Theorem teleportation_takes_front_and_back draw a b (w : W) route ps qa ma qb mb :
  find_route (provider w) (network w) a b = (Some route, ps) ->
  memory (network w) a = qa :: ma ->
  memory (network w) b = mb ++ [qb] ->
  let w0 := after_route_request a b (Some route) ps w in
  (a = b /\ ma = [] ->
     teleportation_protocol find_route pick draw a b w
     = (Exc IndexError, set_memory a [] w0))
  /\ (~ (a = b /\ ma = []) ->
      exists w2,
        teleportation_protocol find_route pick draw a b w
        = teleport_qubits pick draw a b route qa qb w2
        /\ (a <> b ->
              memory (network w2) a = ma /\ memory (network w2) b = mb)
        /\ (a = b -> qa :: memory (network w2) a ++ [qb] = memory (network w) a)
        /\ (forall h, h <> a -> h <> b ->
              memory (network w2) h = memory (network w) h)
        /\ eprs (network w2) = eprs (network w)
        /\ transmitted_qubits w2 = transmitted_qubits w
        /\ logger w2 = logger w
        /\ calls w2 = calls w0).
Proof.
  intros Hroute Ha Hb w0. split.
  - intros [-> ->].
    unfold teleportation_protocol, mbind, M_bind, short_route_valid, memory_len.
    rewrite Hroute. cbn [network]. rewrite Ha.
    cbn [length Nat.ltb Nat.leb orb].
    unfold acquire_qubits, mbind, M_bind.
    rewrite (memory_pop_front_run b qa []) by exact Ha.
    fold (after_route_request b b (Some route) ps w). fold w0.
    rewrite memory_pop_back_empty; [done|].
    rewrite memory_set_memory. by destruct (decide (b = b)).
  - intros Hnot.
    assert (Halias : a = b -> ma <> []) by (intros -> ->; by apply Hnot).
    destruct (teleportation_protocol_acquire draw a b w route ps qa ma qb mb
                Hroute Ha Hb Halias) as (mb' & Hb1 & Hrun).
    fold w0 in Hb1, Hrun.
    exists (set_memory b mb' (set_memory a ma w0)).
    split; [done|].
    rewrite memory_set_memory in Hb1.
    split_and!; try reflexivity.
    + intros Hne. rewrite !memory_set_memory.
      destruct (decide (a = b)) as [|_]; [done|].
      destruct (decide (a = a)) as [_|]; [|done].
      destruct (decide (b = b)) as [_|]; [|done].
      destruct (decide (b = a)) as [|_]; [done|].
      split; [done|].
      unfold w0, after_route_request in Hb1. cbn [network] in Hb1.
      rewrite Hb in Hb1. by apply app_inj_tail in Hb1 as [-> _].
    + intros ->. rewrite !memory_set_memory.
      destruct (decide (b = b)) as [_|]; [|done].
      rewrite Ha, Hb1. done.
    + intros h Hha Hhb. rewrite !memory_set_memory.
      destruct (decide (h = b)); [done|]. by destruct (decide (h = a)).
Qed.

(** The outcome of an attempt that reaches the draw, in any arithmetic: the
    fidelity of the route is the left-to-right sum, from 0, of the
    fidelities of all the pairs of all the hops, divided by their number;
    the probability is the expression of line 143, operation for operation;
    the outcome is the comparison of line 157.  This outcome is the one
    logged, and the one returned and recorded whenever the call returns,
    which it does when the hops run over distinct edges that all hold a
    pair. *)
Lemma teleportation_outcome_any_scalar draw a b (w : W) route ps qa ma qb mb :
  find_route (provider w) (network w) a b = (Some route, ps) ->
  memory (network w) a = qa :: ma ->
  memory (network w) b = mb ++ [qb] ->
  (a = b -> ma <> []) ->
  route_pairs (network w) route <> [] ->
  let fa := qubit_fidelity qa in
  let fb := qubit_fidelity qb in
  let fids := map epr_fidelity (route_pairs (network w) route) in
  let f_route :=
    fdiv (fold_left fadd fids (of_int 0)) (of_int (Z.of_nat (length fids))) in
  let p := fadd (fmul (fmul fa fb) f_route)
             (fmul (fmul (fsub (of_int 1) fa) (fsub (of_int 1) fb))
                (fsub (of_int 1) f_route)) in
  let r := teleportation_protocol find_route pick draw a b w in
  logger r.2 = logger w
    ++ [if fle draw p then LogTeleportSucceeded a b else LogTeleportFailed a b]
  /\ (forall ok, r.1 = Val ok ->
        ok = fle draw p
        /\ transmitted_qubits r.2 = transmitted_qubits w
             ++ [TeleportInfo a b route fa fb f_route p qa qb (fle draw p)])
  /\ (NoDup (hop_edges route) ->
      (forall h, h ∈ hops route -> pool (network w) h.1 h.2 <> []) ->
      r.1 = Val (fle draw p)).
Proof.
  intros Hroute Ha Hb Halias Hpairs fa fb fids f_route p r.
  destruct (teleportation_protocol_acquire draw a b w route ps qa ma qb mb
              Hroute Ha Hb Halias) as (mb' & _ & Hrun).
  set (w2 := set_memory b mb' _) in Hrun.
  destruct (teleport_qubits_run draw a b route qa qb w2 Hpairs)
    as (w3 & w4 & He & _ & Hl & _ & Hlog & _ & Hrem & Hres).
  change (route_pairs (network w2) route) with (route_pairs (network w) route) in *.
  fold fids in Hlog, Hres.
  change (route_fidelity fids) with f_route in *.
  change (success_probability (qubit_fidelity qa) (qubit_fidelity qb) f_route)
    with p in *.
  destruct (remove_eprs_frame (hops route) w3) as (_ & Hl4 & Hlog4 & _).
  rewrite Hrem in Hl4, Hlog4.
  unfold r. rewrite Hrun. clear Hrun r.
  split_and!.
  - destruct (remove_eprs pick (hops route) w3).1; rewrite Hres; cbn;
      by rewrite Hlog4, Hlog.
  - destruct (remove_eprs pick (hops route) w3).1; rewrite Hres; cbn; [|done].
    intros ok [= <-]. by rewrite Hl4, Hl.
  - intros Hnd Hfull.
    destruct (remove_eprs_run (hops route) w3 Hnd) as (w' & Hok & _).
    { intros h Hh. rewrite (pool_same_eprs (network w) (network w3)) by done.
      by apply Hfull. }
    rewrite Hok in Hres. by rewrite Hres.
Qed.

(** *** Further properties of the protocol *)

(** X12.  Lines 111-113 and 119-121: without a route, or with an empty
    memory at either end, the call returns [False] and leaves the network
    and the ledger as they were. *)
Lemma teleportation_fails_fast draw a b (w : W) r ps :
  find_route (provider w) (network w) a b = (r, ps) ->
  r = None \/ memory (network w) a = [] \/ memory (network w) b = [] ->
  exists w',
    teleportation_protocol find_route pick draw a b w = (Val false, w')
    /\ network w' = network w
    /\ transmitted_qubits w' = transmitted_qubits w
    /\ calls w' = calls w ++ [RouteRequest a b r].
Proof.
  intros Hroute Hcase.
  unfold teleportation_protocol, mbind, M_bind, short_route_valid, memory_len.
  rewrite Hroute. destruct r as [route|].
  - cbn [network].
    assert (Hlen : ((length (memory (network w) a) <? 1)%nat
                    || (length (memory (network w) b) <? 1)%nat)%bool = true).
    { destruct Hcase as [|[->| ->]]; [done|done|]. apply orb_true_r. }
    rewrite Hlen. eexists. split; [reflexivity|]. cbn. auto.
  - eexists. split; [reflexivity|]. cbn. auto.
Qed.

Lemma settle_outcome_memories ok a b qa qb (w : W) ma mb :
  a <> b ->
  memory (network w) a = ma ->
  memory (network w) b = mb ->
  let w' := (settle_outcome ok a b qa qb w).2 in
  memory (network w') a = (if ok then ma else ma ++ [qa])
  /\ memory (network w') b = (if ok then mb ++ [qa] else mb ++ [qb]).
Proof.
  intros Hne Ha Hb.
  assert (Hset : forall h m (w0 : W),
            network (set_memory h m w0)
            = mkNetwork (eprs (network w0)) (<[h := m]> (hosts (network w0))))
    by done.
  destruct ok; unfold settle_outcome, mbind, M_bind, memory_append, log;
    cbn [snd network]; unfold memory in *; rewrite !Hset; cbn [hosts eprs].
  - rewrite lookup_insert_ne by done. rewrite lookup_insert_eq.
    cbn [default]. by rewrite Ha, Hb.
  - rewrite lookup_insert_eq.
    rewrite (lookup_insert_ne _ b a) by done.
    rewrite (lookup_insert_ne _ a b) by done.
    rewrite lookup_insert_eq. cbn [default]. by rewrite Ha, Hb.
Qed.

(** X13.  Once the outcome is drawn (distinct endpoints, at least one pair along
    the route) the memories are settled before any pair is removed, so that
    whether the call returns or not: on success the source has lost its
    first qubit, which the destination holds in place of its last one; on
    failure both qubits are back, at the end of their memories. *)
Lemma teleportation_settles_memories draw a b (w : W) route ps qa ma qb mb :
  find_route (provider w) (network w) a b = (Some route, ps) ->
  memory (network w) a = qa :: ma ->
  memory (network w) b = mb ++ [qb] ->
  a <> b ->
  route_pairs (network w) route <> [] ->
  let p := success_probability (qubit_fidelity qa) (qubit_fidelity qb)
             (route_fidelity (map epr_fidelity (route_pairs (network w) route))) in
  let r := teleportation_protocol find_route pick draw a b w in
  memory (network r.2) a = (if fle draw p then ma else ma ++ [qa])
  /\ memory (network r.2) b = (if fle draw p then mb ++ [qa] else mb ++ [qb]).
Proof.
  intros Hroute Ha Hb Hne Hpairs p r.
  destruct (teleportation_protocol_acquire draw a b w route ps qa ma qb mb
              Hroute Ha Hb) as (mb' & Hb1 & Hrun); [done|].
  rewrite memory_set_memory in Hb1.
  destruct (decide (b = a)) as [|_]; [congruence|].
  cbn [network after_route_request] in Hb1. rewrite Hb in Hb1.
  apply app_inj_tail in Hb1 as [<- _].
  set (w2 := set_memory b mb _) in Hrun.
  destruct (teleport_qubits_run draw a b route qa qb w2 Hpairs)
    as (w3 & w4 & _ & _ & _ & _ & _ & Hset & Hrem & Hres).
  change (route_pairs (network w2) route) with (route_pairs (network w) route) in *.
  fold p in Hset, Hres.
  destruct (remove_eprs_frame (hops route) w3) as (Hh & _).
  rewrite Hrem in Hh.
  assert (Hmem : forall h, memory (network r.2) h = memory (network w3) h).
  { intros h. unfold r. rewrite Hrun.
    destruct (remove_eprs pick (hops route) w3).1; rewrite Hres;
      unfold memory; cbn [snd network]; by rewrite Hh. }
  rewrite !Hmem, <- Hset.
  apply settle_outcome_memories; [done| |].
  - cbn [network]. unfold w2. rewrite !memory_set_memory.
    destruct (decide (a = b)); [done|]. by destruct (decide (a = a)).
  - cbn [network]. unfold w2. rewrite memory_set_memory.
    by destruct (decide (b = b)).
Qed.

Lemma pairs_on_cons (n : Network F) e (es : list (Z * Z)) :
  pairs_on n (e :: es)
  = (length (default [] (eprs n !! e)) + pairs_on n es)%nat.
Proof. reflexivity. Qed.

Lemma pairs_on_removed (n n' : Network F) (es : list (Z * Z)) :
  (forall e, e ∈ es ->
     S (length (default [] (eprs n' !! e))) = length (default [] (eprs n !! e))) ->
  (pairs_on n' es + length es = pairs_on n es)%nat.
Proof.
  induction es as [|e es IH]; intros Hall; [done|].
  rewrite !pairs_on_cons. cbn [length].
  pose proof (Hall e ltac:(left)).
  assert ((pairs_on n' es + length es = pairs_on n es)%nat) as IH'.
  { apply IH. intros e' He'. apply Hall. by right. }
  lia.
Qed.

Lemma length_remove_at {A} (i : nat) (l : list A) :
  (i < length l)%nat -> S (length (remove_at i l)) = length l.
Proof.
  intros Hi. unfold remove_at.
  rewrite length_app, length_take, length_drop. lia.
Qed.

(** X14.  Over a route whose hops run over distinct edges that all hold a
    pair, an attempt that reaches the draw returns, and it has taken exactly
    one pair out of the pool of every hop and none out of any other pool: as
    many pairs as the route has hops. *)
Lemma teleportation_consumes_one_pair_per_hop draw a b (w : W) route ps qa ma qb mb :
  find_route (provider w) (network w) a b = (Some route, ps) ->
  memory (network w) a = qa :: ma ->
  memory (network w) b = mb ++ [qb] ->
  (a = b -> ma <> []) ->
  hops route <> [] ->
  NoDup (hop_edges route) ->
  (forall h, h ∈ hops route -> pool (network w) h.1 h.2 <> []) ->
  let r := teleportation_protocol find_route pick draw a b w in
  (exists ok, r.1 = Val ok)
  /\ (forall c d,
        length (pool (network r.2) c d)
        = if decide (edge c d ∈ hop_edges route)
          then (length (pool (network w) c d) - 1)%nat
          else length (pool (network w) c d))
  /\ (pairs_on (network r.2) (hop_edges route) + length (hops route)
      = pairs_on (network w) (hop_edges route))%nat.
Proof.
  intros Hroute Ha Hb Halias Hhops Hnd Hfull r.
  assert (Hpairs : route_pairs (network w) route <> []).
  { unfold route_pairs. destruct (hops route) as [|h hs]; [done|].
    cbn [flat_map]. intros Hnil. apply app_eq_nil in Hnil as [Hnil _].
    apply (Hfull h); [left|done]. }
  destruct (teleportation_protocol_acquire draw a b w route ps qa ma qb mb
              Hroute Ha Hb Halias) as (mb' & _ & Hrun).
  set (w2 := set_memory b mb' _) in Hrun.
  destruct (teleport_qubits_run draw a b route qa qb w2 Hpairs)
    as (w3 & w4 & He & _ & _ & _ & _ & _ & Hrem & Hres).
  destruct (remove_eprs_run (hops route) w3 Hnd) as (w' & Hok & _ & Hpool).
  { intros h Hh. rewrite (pool_same_eprs (network w) (network w3)) by done.
    by apply Hfull. }
  rewrite Hok in Hres, Hrem. cbn [fst snd] in Hres, Hrem. subst w4.
  assert (Hlen : forall c d,
            length (pool (network r.2) c d)
            = if decide (edge c d ∈ hop_edges route)
              then (length (pool (network w) c d) - 1)%nat
              else length (pool (network w) c d)).
  { intros c d. unfold r. rewrite Hrun, Hres. cbn [snd network].
    rewrite Hpool. cbv zeta.
    rewrite (pool_same_eprs (network w) (network w3)) by done.
    fold (hop_edges route).
    destruct (decide (edge c d ∈ hop_edges route)) as [Hin|]; [|done].
    set (q := pool (network w) c d).
    assert (Hq : q <> []).
    { apply list_elem_of_fmap in Hin as (h & Heq & Hh).
      unfold q, pool. rewrite Heq. by apply (Hfull h). }
    assert (pick q mod length q < length q)%nat.
    { apply Nat.mod_upper_bound. by destruct q. }
    pose proof (length_remove_at (pick q mod length q) q). lia. }
  split_and!.
  - unfold r. rewrite Hrun, Hres. by eexists.
  - exact Hlen.
  - replace (length (hops route)) with (length (hop_edges route))
      by (unfold hop_edges; apply length_map).
    apply pairs_on_removed. intros e Hin.
    apply list_elem_of_fmap in Hin as (h & -> & Hh).
    pose proof (Hlen h.1 h.2) as Hl. unfold pool in Hl.
    destruct (decide (edge h.1 h.2 ∈ hop_edges route)) as [_|Hout].
    + pose proof (Hfull h Hh) as Hne. unfold pool in Hne.
      destruct (default [] (eprs (network w) !! edge h.1 h.2)); [done|].
      cbn [length] in *. lia.
    + exfalso. apply Hout.
      apply (list_elem_of_fmap_2 (fun h => edge h.1 h.2) _ _ Hh).
Qed.

(** *** Every path through the protocol *)

Lemma nil_or_snoc {A} (l : list A) : l = [] \/ exists m q, l = m ++ [q].
Proof.
  destruct l as [|x l] using rev_ind; [by left|]. right. by exists l, x.
Qed.

(** Lines 111-113 and 119-121 *)
Lemma teleportation_protocol_refuses draw a b (w : W) r ps :
  find_route (provider w) (network w) a b = (r, ps) ->
  r = None \/ memory (network w) a = [] \/ memory (network w) b = [] ->
  teleportation_protocol find_route pick draw a b w
  = (Val false,
     mkWorld (network w) ps (transmitted_qubits w)
       (logger w ++ [match r with
                     | None => LogNoTeleportRoute a b
                     | Some _ => LogNotEnoughQubits
                     end])
       (calls w ++ [RouteRequest a b r])).
Proof.
  intros Hroute Hcase.
  unfold teleportation_protocol, mbind, M_bind, short_route_valid, memory_len.
  rewrite Hroute. destruct r as [route|]; [|done].
  cbn [network].
  assert (Hlen : ((length (memory (network w) a) <? 1)%nat
                  || (length (memory (network w) b) <? 1)%nat)%bool = true).
  { destruct Hcase as [|[->| ->]]; [done|done|]. apply orb_true_r. }
  by rewrite Hlen.
Qed.

(** Lines 123-124 when source and destination are one host that holds a
    single qubit. *)
Lemma teleportation_protocol_lone_qubit draw a (w : W) route ps qa :
  find_route (provider w) (network w) a a = (Some route, ps) ->
  memory (network w) a = [qa] ->
  teleportation_protocol find_route pick draw a a w
  = (Exc IndexError, set_memory a [] (after_route_request a a (Some route) ps w)).
Proof.
  intros Hroute Ha.
  unfold teleportation_protocol, mbind, M_bind, short_route_valid, memory_len.
  rewrite Hroute. cbn [network]. rewrite Ha.
  cbn [length Nat.ltb Nat.leb orb].
  unfold acquire_qubits, mbind, M_bind.
  rewrite (memory_pop_front_run a qa []) by exact Ha.
  fold (after_route_request a a (Some route) ps w).
  rewrite memory_pop_back_empty; [done|].
  rewrite memory_set_memory. by destruct (decide (a = a)).
Qed.

(** Lines 131-138 over a route along which no pair is found. *)
Lemma teleport_qubits_no_pairs draw a b route qa qb (w : W) :
  route_pairs (network w) route = [] ->
  teleport_qubits pick draw a b route qa qb w
  = (Val false,
     mkWorld (network w) (provider w) (transmitted_qubits w)
       (logger w ++ [LogNoEprOnRoute a b])
       (calls w ++ map (fun h => EprRead h.1 h.2) (hops route))).
Proof.
  intros Hnone. unfold teleport_qubits, mbind, M_bind.
  rewrite collect_fidelities_run, flat_map_fidelities. cbn [app].
  fold (route_pairs (network w) route). by rewrite Hnone.
Qed.

(** X6.  When no pair is found along the route (every hop has an empty
    pool, or the route has no hop) the call returns [False] after both
    qubits were taken: nothing is recorded, no pool is touched, and the
    source's first qubit and the destination's last qubit are in no memory
    any more. *)
Theorem teleportation_without_pairs draw a b (w : W) route ps qa ma qb mb :
  find_route (provider w) (network w) a b = (Some route, ps) ->
  memory (network w) a = qa :: ma ->
  memory (network w) b = mb ++ [qb] ->
  a <> b ->
  route_pairs (network w) route = [] ->
  exists w',
    teleportation_protocol find_route pick draw a b w = (Val false, w')
    /\ memory (network w') a = ma
    /\ memory (network w') b = mb
    /\ eprs (network w') = eprs (network w)
    /\ transmitted_qubits w' = transmitted_qubits w
    /\ logger w' = logger w ++ [LogNoEprOnRoute a b]
    /\ calls w' = calls w ++ RouteRequest a b (Some route)
                    :: map (fun h => EprRead h.1 h.2) (hops route).
Proof.
  intros Hroute Ha Hb Hne Hnone.
  destruct (teleportation_protocol_acquire draw a b w route ps qa ma qb mb
              Hroute Ha Hb) as (mb' & Hb1 & Hrun); [done|].
  rewrite memory_set_memory in Hb1.
  destruct (decide (b = a)) as [|_]; [congruence|].
  cbn [network after_route_request] in Hb1. rewrite Hb in Hb1.
  apply app_inj_tail in Hb1 as [<- _].
  rewrite teleport_qubits_no_pairs in Hrun by exact Hnone.
  eexists. split; [exact Hrun|]. cbn [network transmitted_qubits logger calls].
  rewrite !memory_set_memory.
  destruct (decide (a = b)); [done|].
  destruct (decide (a = a)); [|done].
  destruct (decide (b = b)); [|done].
  split_and!; try done. cbn. by rewrite <- app_assoc.
Qed.

(** X7.  The ledger and the returned value agree: a call either appends
    nothing, and then it does not return [True] (it returns [False] or
    raises), or it appends exactly one record, of this teleportation, and
    returns the outcome written in that record. *)
Theorem teleportation_records_what_it_returns draw a b (w : W) :
  let r := teleportation_protocol find_route pick draw a b w in
  (transmitted_qubits r.2 = transmitted_qubits w /\ r.1 <> Val true)
  \/ (exists route f_route p qa qb ok,
        transmitted_qubits r.2 =
          transmitted_qubits w
            ++ [TeleportInfo a b route (qubit_fidelity qa) (qubit_fidelity qb)
                  f_route p qa qb ok]
        /\ r.1 = Val ok).
Proof.
  cbv zeta.
  destruct (find_route (provider w) (network w) a b) as [[route|] ps] eqn:Hroute.
  2:{ left. rewrite (teleportation_protocol_refuses draw a b w None ps) by auto.
      by split. }
  destruct (memory (network w) a) as [|qa ma] eqn:Ha.
  { left. rewrite (teleportation_protocol_refuses draw a b w (Some route) ps) by auto.
    by split. }
  destruct (nil_or_snoc (memory (network w) b)) as [Hb|(mb & qb & Hb)].
  { left. rewrite (teleportation_protocol_refuses draw a b w (Some route) ps) by auto.
    by split. }
  destruct (decide (a = b /\ ma = [])) as [[<- ->]|Hnot].
  { left. rewrite (teleportation_protocol_lone_qubit draw a w route ps qa) by done.
    by split. }
  assert (Halias : a = b -> ma <> []) by (intros -> ->; by apply Hnot).
  destruct (teleportation_protocol_acquire draw a b w route ps qa ma qb mb
              Hroute Ha Hb Halias) as (mb' & _ & Hrun).
  set (w2 := set_memory b mb' _) in Hrun. rewrite Hrun.
  destruct (route_pairs (network w2) route) as [|e es] eqn:Hpairs.
  { left. rewrite teleport_qubits_no_pairs by done. by split. }
  destruct (teleport_qubits_run draw a b route qa qb w2)
    as (w3 & w4 & _ & _ & Hl & _ & _ & _ & Hrem & Hres); [by rewrite Hpairs|].
  destruct (remove_eprs_frame (hops route) w3) as (_ & Hl4 & _).
  rewrite Hrem in Hl4.
  destruct (remove_eprs pick (hops route) w3).1.
  - right. rewrite Hres. cbn [fst snd transmitted_qubits].
    rewrite Hl4, Hl. by eexists route, _, _, qa, qb, _.
  - left. rewrite Hres. cbn [fst snd]. rewrite Hl4, Hl. by split.
Qed.

(** X8.  The order of the calls in an attempt that runs to its end (hops
    over distinct edges that all hold a pair): one route request, then one
    read of the pool of every hop in the order of the route, and only then
    one removal on every hop, in the same order. *)
Theorem teleportation_reads_then_removes draw a b (w : W) route ps qa ma qb mb :
  find_route (provider w) (network w) a b = (Some route, ps) ->
  memory (network w) a = qa :: ma ->
  memory (network w) b = mb ++ [qb] ->
  (a = b -> ma <> []) ->
  hops route <> [] ->
  NoDup (hop_edges route) ->
  (forall h, h ∈ hops route -> pool (network w) h.1 h.2 <> []) ->
  calls (teleportation_protocol find_route pick draw a b w).2
  = calls w ++ RouteRequest a b (Some route)
      :: map (fun h => EprRead h.1 h.2) (hops route)
      ++ map (fun h => EprRemove h.1 h.2) (hops route).
Proof.
  intros Hroute Ha Hb Halias Hhops Hnd Hfull.
  assert (Hpairs : route_pairs (network w) route <> []).
  { unfold route_pairs. destruct (hops route) as [|h hs]; [done|].
    cbn [flat_map]. intros Hnil. apply app_eq_nil in Hnil as [Hnil _].
    apply (Hfull h); [left|done]. }
  destruct (teleportation_protocol_acquire draw a b w route ps qa ma qb mb
              Hroute Ha Hb Halias) as (mb' & _ & Hrun).
  set (w2 := set_memory b mb' _) in Hrun.
  destruct (teleport_qubits_run draw a b route qa qb w2 Hpairs)
    as (w3 & w4 & He & _ & _ & Hc & _ & _ & Hrem & Hres).
  destruct (remove_eprs_run (hops route) w3 Hnd) as (w' & Hok & Hc' & _).
  { intros h Hh. rewrite (pool_same_eprs (network w) (network w3)) by done.
    by apply Hfull. }
  rewrite Hok in Hres, Hrem. cbn [fst snd] in Hres, Hrem. subst w4.
  rewrite Hrun, Hres. cbn [snd calls]. rewrite Hc', Hc. cbn.
  by rewrite <- !app_assoc.
Qed.

(** *** What every path keeps *)

Lemma preserves_ret {A} (R : W -> W -> Prop) `{!Reflexive R} (x : A) :
  preserves R (mret x : M W A).
Proof. intros w. cbn. reflexivity. Qed.

Lemma preserves_bind {A B} (R : W -> W -> Prop) `{!PreOrder R}
    (m : M W A) (k : A -> M W B) :
  preserves R m -> (forall x, preserves R (k x)) -> preserves R (m ≫= k).
Proof.
  intros Hm Hk w. unfold mbind, M_bind.
  specialize (Hm w). destruct (m w) as [[x|e] w1]; cbn in *; [|done].
  exact (transitivity Hm (Hk x w1)).
Qed.

Ltac preserves_step :=
  match goal with
  | |- preserves _ (mbind _ _) => apply preserves_bind; [tc_solve| |intros ?]
  | |- preserves _ (mret _) => apply preserves_ret; tc_solve
  | |- preserves _ (if ?c then _ else _) => destruct c
  | |- preserves _ (match ?x with _ => _ end) => destruct x
  end.

#[local] Instance grows_preorder : PreOrder (grows : W -> W -> Prop).
Proof.
  split.
  - intros w. by repeat split.
  - intros w1 w2 w3 (? & ? & ?) (? & ? & ?). repeat split; by etransitivity.
Qed.

#[local] Instance touches_only_preorder a b es :
  PreOrder (touches_only a b es : W -> W -> Prop).
Proof.
  split.
  - intros w. by repeat split.
  - intros w1 w2 w3 (Hm & Hp & Hl) (Hm' & Hp' & Hl'). split_and!.
    + intros h Ha Hb. by rewrite Hm', Hm.
    + intros c d Hout. by rewrite Hp', Hp.
    + intros c d. specialize (Hl c d). specialize (Hl' c d). lia.
Qed.

Lemma same_network_touches a b es (w w' : W) :
  network w' = network w -> touches_only a b es w w'.
Proof. intros Hn. unfold touches_only. rewrite Hn. by repeat split. Qed.

Create HintDb keeps.

Lemma log_grows msg : preserves (W:=W) grows (log msg).
Proof. intros w. cbn. repeat split; try done. by apply prefix_app_r. Qed.

Lemma ledger_append_grows info : preserves (W:=W) grows (ledger_append info).
Proof. intros w. cbn. repeat split; try done. by apply prefix_app_r. Qed.

Lemma short_route_valid_grows a b : preserves (W:=W) grows (short_route_valid find_route a b).
Proof.
  intros w. unfold short_route_valid.
  destruct (find_route _ _ _ _). cbn. repeat split; try done. by apply prefix_app_r.
Qed.

Lemma get_eprs_from_edge_grows a b : preserves (W:=W) grows (get_eprs_from_edge a b).
Proof. intros w. cbn. repeat split; try done. by apply prefix_app_r. Qed.

Lemma remove_epr_grows a b : preserves (W:=W) grows (remove_epr pick a b).
Proof.
  intros w. unfold remove_epr. cbv zeta.
  destruct (_ !! _); cbn; repeat split; try done; by apply prefix_app_r.
Qed.

Lemma memory_len_grows h : preserves (W:=W) grows (memory_len h).
Proof. intros w. by repeat split. Qed.

Lemma memory_pop_front_grows h : preserves (W:=W) grows (memory_pop_front h).
Proof. intros w. unfold memory_pop_front. by destruct (memory _ _); repeat split. Qed.

Lemma memory_pop_back_grows h : preserves (W:=W) grows (memory_pop_back h).
Proof.
  intros w. unfold memory_pop_back. cbv zeta. by destruct (last _); repeat split.
Qed.

Lemma memory_append_grows h q : preserves (W:=W) grows (memory_append h q).
Proof. intros w. by repeat split. Qed.

#[local] Hint Resolve log_grows ledger_append_grows short_route_valid_grows
  get_eprs_from_edge_grows remove_epr_grows memory_len_grows
  memory_pop_front_grows memory_pop_back_grows memory_append_grows : keeps.

Lemma establish_routes_grows att a b n : forall routes,
  preserves (W:=W) grows (establish_routes find_route att a b n routes).
Proof.
  induction n as [|n IH]; intros routes; cbn [establish_routes];
    repeat preserves_step; auto with keeps.
Qed.

Lemma check_hops_grows att hs : preserves (W:=W) grows (check_hops att hs).
Proof.
  induction hs as [|[n1 n2] hs IH]; cbn [check_hops];
    repeat preserves_step; auto with keeps.
Qed.

Lemma check_routes_grows att routes : preserves (W:=W) grows (check_routes att routes).
Proof.
  induction routes as [|r routes IH]; cbn [check_routes];
    repeat preserves_step; auto using check_hops_grows with keeps.
Qed.

Lemma batch_pass_grows att a b n : preserves (W:=W) grows (batch_pass find_route att a b n).
Proof.
  unfold batch_pass.
  repeat preserves_step; auto using establish_routes_grows, check_routes_grows with keeps.
Qed.

Lemma transmission_loop_grows remaining : forall att a b n routes,
  preserves (W:=W) grows (transmission_loop find_route remaining att a b n routes).
Proof.
  induction remaining as [|k IH]; intros att a b n routes; cbn [transmission_loop];
    repeat preserves_step; auto using batch_pass_grows with keeps.
Qed.

Lemma register_routes_grows a b routes : preserves (W:=W) grows (register_routes a b routes).
Proof.
  induction routes as [|r routes IH]; cbn [register_routes];
    repeat preserves_step; auto with keeps.
Qed.

Lemma request_transmission_grows a b n :
  preserves (W:=W) grows (request_transmission find_route a b n).
Proof.
  unfold request_transmission. preserves_step.
  - apply transmission_loop_grows.
  - destruct x as [[att routes] ok].
    repeat preserves_step; auto using register_routes_grows with keeps.
Qed.

Lemma collect_fidelities_grows hs : forall acc,
  preserves (W:=W) grows (collect_fidelities hs acc).
Proof.
  induction hs as [|[a b] hs IH]; intros acc; cbn [collect_fidelities];
    repeat preserves_step; auto with keeps.
Qed.

Lemma remove_eprs_grows hs : preserves (W:=W) grows (remove_eprs pick hs).
Proof.
  induction hs as [|[a b] hs IH]; cbn [remove_eprs];
    repeat preserves_step; auto with keeps.
Qed.

Lemma teleportation_protocol_grows draw a b :
  preserves (W:=W) grows (teleportation_protocol find_route pick draw a b).
Proof.
  unfold teleportation_protocol, acquire_qubits, teleport_qubits, settle_outcome.
  repeat preserves_step;
    auto using collect_fidelities_grows, remove_eprs_grows with keeps.
Qed.

(** X9.  Append-only: whatever calls are made on the layer, in whatever
    order and whether they return or raise, the ledger read by the two
    accessors only grows at its end; the records that were in it stay, in
    place and unchanged.  The same holds of the logger and of the record of
    calls. *)
Theorem ledger_is_append_only (ops : list (Op (F:=F))) (w : W) :
  get_transmitted_qubits w
    `prefix_of` get_teleported_qubits (run_ops find_route pick ops w)
  /\ logger w `prefix_of` logger (run_ops find_route pick ops w)
  /\ calls w `prefix_of` calls (run_ops find_route pick ops w).
Proof.
  change (grows w (run_ops find_route pick ops w)).
  revert w. induction ops as [|op ops IH]; intros w; [reflexivity|].
  cbn [run_ops fold_left]. etransitivity; [|apply IH].
  destruct op; cbn [run_op].
  - apply request_transmission_grows.
  - apply teleportation_protocol_grows.
Qed.

Lemma set_memory_touches a b es h m (w : W) :
  h = a \/ h = b -> touches_only a b es w (set_memory h m w).
Proof.
  intros Hh. split_and!.
  - intros h' Ha Hb. rewrite memory_set_memory.
    destruct (decide (h' = h)) as [->|]; [|done]. by destruct Hh.
  - done.
  - done.
Qed.

Lemma log_touches a b es msg : preserves (W:=W) (touches_only a b es) (log msg).
Proof. intros w. by apply same_network_touches. Qed.

Lemma ledger_append_touches a b es info :
  preserves (W:=W) (touches_only a b es) (ledger_append info).
Proof. intros w. by apply same_network_touches. Qed.

Lemma get_eprs_from_edge_touches a b es c d :
  preserves (W:=W) (touches_only a b es) (get_eprs_from_edge c d).
Proof. intros w. by apply same_network_touches. Qed.

Lemma memory_len_touches a b es h :
  preserves (W:=W) (touches_only a b es) (memory_len h).
Proof. intros w. by apply same_network_touches. Qed.

Lemma memory_pop_front_touches a b es h :
  h = a \/ h = b -> preserves (W:=W) (touches_only a b es) (memory_pop_front h).
Proof.
  intros Hh w. unfold memory_pop_front.
  destruct (memory _ _); cbn [snd]; [reflexivity|by apply set_memory_touches].
Qed.

Lemma memory_pop_back_touches a b es h :
  h = a \/ h = b -> preserves (W:=W) (touches_only a b es) (memory_pop_back h).
Proof.
  intros Hh w. unfold memory_pop_back. cbv zeta.
  destruct (last _); cbn [snd]; [by apply set_memory_touches|reflexivity].
Qed.

Lemma memory_append_touches a b es h q :
  h = a \/ h = b -> preserves (W:=W) (touches_only a b es) (memory_append h q).
Proof. intros Hh w. by apply set_memory_touches. Qed.

Lemma remove_epr_touches a b es c d :
  edge c d ∈ es -> preserves (W:=W) (touches_only a b es) (remove_epr pick c d).
Proof.
  intros Hin w. unfold remove_epr. cbv zeta.
  destruct (_ !! _) as [e|] eqn:Ei; cbn [snd]; [|by apply same_network_touches].
  apply lookup_lt_Some in Ei.
  split_and!.
  - done.
  - intros c' d' Hout. rewrite pool_set_pool.
    destruct (decide (edge c' d' = edge c d)) as [Heq|]; [|done].
    by rewrite Heq in Hout.
  - intros c' d'. rewrite pool_set_pool.
    destruct (decide (edge c' d' = edge c d)) as [Heq|]; [|done].
    unfold record_call. cbn [network].
    replace (pool (network w) c' d') with (pool (network w) c d)
      by (unfold pool; by rewrite Heq).
    pose proof (length_remove_at _ _ Ei). lia.
Qed.

#[local] Hint Resolve log_touches ledger_append_touches
  get_eprs_from_edge_touches memory_len_touches memory_pop_front_touches
  memory_pop_back_touches memory_append_touches : keeps.

Lemma collect_fidelities_touches a b es hs : forall acc,
  preserves (W:=W) (touches_only a b es) (collect_fidelities hs acc).
Proof.
  induction hs as [|[c d] hs IH]; intros acc; cbn [collect_fidelities];
    repeat preserves_step; auto with keeps.
Qed.

Lemma remove_eprs_touches a b es hs :
  (forall h, h ∈ hs -> edge h.1 h.2 ∈ es) ->
  preserves (W:=W) (touches_only a b es) (remove_eprs pick hs).
Proof.
  induction hs as [|[c d] hs IH]; intros Hsub; cbn [remove_eprs];
    repeat preserves_step; auto with keeps.
  - apply remove_epr_touches. apply (Hsub (c, d)). left.
  - apply IH. intros h Hh. apply Hsub. by right.
Qed.

(** X10.  A teleportation touches nothing but its two endpoints and its
    route: whether it returns or raises, the memory of every other host and
    the pool of every edge that is not a hop of the route it was given are
    what they were (every pool, when it was given no route), and no pool
    holds more pairs than before. *)
Theorem teleportation_touches_only_endpoints_and_route draw a b (w : W) :
  let route := default [] (find_route (provider w) (network w) a b).1 in
  let w' := (teleportation_protocol find_route pick draw a b w).2 in
  (forall h, h <> a -> h <> b ->
     memory (network w') h = memory (network w) h)
  /\ (forall c d, edge c d ∉ hop_edges route ->
        pool (network w') c d = pool (network w) c d)
  /\ (forall c d,
        (length (pool (network w') c d) <= length (pool (network w) c d))%nat).
Proof.
  cbv zeta.
  change (touches_only a b
            (hop_edges (default [] (find_route (provider w) (network w) a b).1))
            w (teleportation_protocol find_route pick draw a b w).2).
  unfold teleportation_protocol.
  unfold mbind at 1. unfold M_bind at 1. unfold short_route_valid at 1.
  destruct (find_route (provider w) (network w) a b) as [[route|] ps];
    cbn [fst default]; [|by apply same_network_touches].
  match goal with |- touches_only _ _ ?es _ (?m ?w0).2 =>
    assert (Hp : preserves (W:=W) (touches_only a b es) m);
      [|exact (transitivity (same_network_touches a b es w w0 eq_refl) (Hp w0))]
  end.
  unfold acquire_qubits, teleport_qubits, settle_outcome.
  repeat preserves_step;
    auto 6 using collect_fidelities_touches with keeps.
  all: apply remove_eprs_touches; intros h Hh;
    apply (list_elem_of_fmap_2 (fun h => edge h.1 h.2) _ _ Hh).
Qed.

Lemma remove_eprs_app hs1 hs2 : forall (w : W),
  remove_eprs pick (hs1 ++ hs2) w
  = match remove_eprs pick hs1 w with
    | (Val _, w1) => remove_eprs pick hs2 w1
    | (Exc e, w1) => (Exc e, w1)
    end.
Proof.
  induction hs1 as [|[a b] hs1 IH]; intros w; [done|].
  cbn [app remove_eprs]. unfold mbind, M_bind.
  destruct (remove_epr pick a b w) as [[e|e] w1]; [|done].
  apply IH.
Qed.

(** X11.  A hop without a pair on a route that holds pairs elsewhere: the
    attempt passes every check, draws and logs its outcome, removes one
    pair on each hop that comes before the first empty one, and then
    [remove_epr] raises on that hop; nothing is recorded in the ledger and
    the pairs already removed stay removed. *)
Theorem teleportation_raises_at_first_empty_hop
    draw a b (w : W) route ps qa ma qb mb pre h post :
  find_route (provider w) (network w) a b = (Some route, ps) ->
  memory (network w) a = qa :: ma ->
  memory (network w) b = mb ++ [qb] ->
  (a = b -> ma <> []) ->
  route_pairs (network w) route <> [] ->
  hops route = pre ++ h :: post ->
  NoDup (map (fun h => edge h.1 h.2) (pre ++ [h])) ->
  (forall h', h' ∈ pre -> pool (network w) h'.1 h'.2 <> []) ->
  pool (network w) h.1 h.2 = [] ->
  let r := teleportation_protocol find_route pick draw a b w in
  r.1 = Exc (NoEprAvailable h.1 h.2)
  /\ transmitted_qubits r.2 = transmitted_qubits w
  /\ calls r.2 = calls w ++ RouteRequest a b (Some route)
                   :: map (fun h => EprRead h.1 h.2) (hops route)
                   ++ map (fun h => EprRemove h.1 h.2) (pre ++ [h])
  /\ (forall c d,
        length (pool (network r.2) c d)
        = if decide (edge c d ∈ map (fun h => edge h.1 h.2) pre)
          then (length (pool (network w) c d) - 1)%nat
          else length (pool (network w) c d)).
Proof.
  intros Hroute Ha Hb Halias Hpairs Hhops Hnd Hfull Hempty r.
  destruct (teleportation_protocol_acquire draw a b w route ps qa ma qb mb
              Hroute Ha Hb Halias) as (mb' & _ & Hrun).
  set (w2 := set_memory b mb' _) in Hrun.
  destruct (teleport_qubits_run draw a b route qa qb w2 Hpairs)
    as (w3 & w4 & He & _ & Hl & Hc & _ & _ & Hrem & Hres).
  rewrite map_app in Hnd. apply NoDup_app in Hnd as (Hnd & Hdisj & _).
  destruct (remove_eprs_run pre w3 Hnd) as (w' & Hok & Hc' & Hpool).
  { intros h' Hh'. rewrite (pool_same_eprs (network w) (network w3)) by done.
    by apply Hfull. }
  assert (Hout : edge h.1 h.2 ∉ map (fun h => edge h.1 h.2) pre).
  { intros Hin. apply (Hdisj _ Hin). cbn. left. }
  assert (Hraise : remove_eprs pick (hops route) w3
                   = (Exc (NoEprAvailable h.1 h.2),
                      record_call (EprRemove h.1 h.2) w')).
  { rewrite Hhops, remove_eprs_app, Hok. destruct h as [c d].
    cbn [remove_eprs fst snd] in *. unfold mbind, M_bind, remove_epr. cbv zeta.
    rewrite Hpool. cbv zeta.
    destruct (decide (edge c d ∈ _)) as [|_]; [done|].
    rewrite (pool_same_eprs (network w) (network w3)) by done.
    by rewrite Hempty. }
  rewrite Hraise in Hres, Hrem. cbn [fst snd] in Hres, Hrem. subst w4.
  unfold r. rewrite Hrun, Hres. cbn [fst snd].
  split_and!.
  - done.
  - destruct (remove_eprs_frame pre w3) as (_ & Hl' & _).
    rewrite Hok in Hl'. cbn in *. by rewrite Hl', Hl.
  - cbn. rewrite Hc', Hc, map_app. cbn. by rewrite <- !app_assoc.
  - intros c d. unfold record_call. cbn [network]. rewrite Hpool. cbv zeta.
    rewrite (pool_same_eprs (network w) (network w3)) by done.
    destruct (decide (edge c d ∈ _)) as [Hin|]; [|done].
    set (q := pool (network w) c d).
    assert (Hq : q <> []).
    { apply list_elem_of_fmap in Hin as (h' & Heq & Hh').
      unfold q, pool. rewrite Heq. by apply (Hfull h'). }
    assert (pick q mod length q < length q)%nat.
    { apply Nat.mod_upper_bound. by destruct q. }
    pose proof (length_remove_at (pick q mod length q) q). lia.
Qed.

End Teleportation.

(** ** The outcome of a teleportation in exact arithmetic *)

Section OutcomeInExactArithmetic.

Context {PS : Type}.
Variable find_route : PS -> Network Q -> Z -> Z -> option Route * PS.
Variable pick : list (Epr Q) -> nat.

Local Open Scope Q_scope.

(** Adding from the left, as [sum] does, gives the total. *)
Lemma fold_left_Qplus_total (xs : list Q) : forall acc,
  fold_left Qplus xs acc == acc + total xs.
Proof.
  induction xs as [|x xs IH]; intros acc; cbn [fold_left total].
  - ring.
  - rewrite IH. ring.
Qed.

(** C3.  Success probability and outcome draw: in an attempt that reaches
    the draw (a route, a qubit [qa] at the front of the source's memory, a
    qubit [qb] at the back of the destination's, at least one pair along the
    route), [f_route] is the arithmetic mean of the fidelities of all the
    pairs of all the hops taken together, the probability is
    [fa * fb * f_route + (1 - fa) * (1 - fb) * (1 - f_route)], and the
    outcome is success if and only if the value drawn is less than or equal
    to that probability.  This outcome is the one logged, and the one
    returned and recorded with [f_route] and the probability whenever the
    call returns, which it does when the hops run over distinct edges that
    all hold a pair. *)
Theorem teleportation_outcome draw a b (w : World Q PS) route ps qa ma qb mb :
  find_route (provider w) (network w) a b = (Some route, ps) ->
  memory (network w) a = qa :: ma ->
  memory (network w) b = mb ++ [qb] ->
  (a = b -> ma <> []) ->
  route_pairs (network w) route <> [] ->
  let fa := qubit_fidelity qa in
  let fb := qubit_fidelity qb in
  let fids := map epr_fidelity (route_pairs (network w) route) in
  let f_route := fold_left Qplus fids 0 / inject_Z (Z.of_nat (length fids)) in
  let p := fa * fb * f_route + (1 - fa) * (1 - fb) * (1 - f_route) in
  let r := teleportation_protocol find_route pick draw a b w in
  f_route == arithmetic_mean fids
  /\ exists ok : bool,
       (ok = true <-> draw <= p)
       /\ logger r.2 = logger w
            ++ [if ok then LogTeleportSucceeded a b else LogTeleportFailed a b]
       /\ (forall ok', r.1 = Val ok' ->
             ok' = ok
             /\ transmitted_qubits r.2 = transmitted_qubits w
                  ++ [TeleportInfo a b route fa fb f_route p qa qb ok])
       /\ (NoDup (hop_edges route) ->
           (forall h, h ∈ hops route -> pool (network w) h.1 h.2 <> []) ->
           r.1 = Val ok).
Proof.
  intros Hroute Ha Hb Halias Hpairs fa fb fids f_route p r.
  split.
  - unfold f_route, arithmetic_mean.
    rewrite fold_left_Qplus_total. apply Qdiv_comp; [ring|reflexivity].
  - destruct (teleportation_outcome_any_scalar find_route pick draw a b w
                route ps qa ma qb mb Hroute Ha Hb Halias Hpairs)
      as (Hlog & Hret & Htotal).
    exists (Qle_bool draw p). split_and!.
    + apply Qle_bool_iff.
    + exact Hlog.
    + exact Hret.
    + exact Htotal.
Qed.

End OutcomeInExactArithmetic.

(** ** The formulas in exact arithmetic *)

Section ExactArithmetic.

Local Open Scope Q_scope.

Lemma py_sum_bounds (fs : list Q) : forall acc,
  Forall (fun f => 0 <= f <= 1) fs ->
  acc <= fold_left Qplus fs acc
  /\ fold_left Qplus fs acc <= acc + inject_Z (Z.of_nat (length fs)).
Proof.
  induction fs as [|f fs IH]; intros acc Hall.
  - cbn [fold_left length]. change (inject_Z (Z.of_nat 0)) with 0. split; lra.
  - apply Forall_cons in Hall as [[Hlo Hhi] Hall].
    cbn [fold_left length]. destruct (IH (acc + f) Hall) as [IHlo IHhi].
    rewrite Nat2Z.inj_succ. unfold Z.succ. rewrite inject_Z_plus.
    change (inject_Z 1) with 1. split; lra.
Qed.

(** X15.  In exact arithmetic the fidelity of a route, computed at line 140
    from fidelities that all lie between 0 and 1, lies between 0 and 1. *)
Theorem route_fidelity_within_bounds (fs : list Q) :
  fs <> [] ->
  Forall (fun f => 0 <= f <= 1) fs ->
  0 <= route_fidelity fs <= 1.
Proof.
  intros Hne Hall. unfold route_fidelity, py_sum. cbn [fdiv fadd of_int Scalar_Q].
  destruct (py_sum_bounds fs (inject_Z 0) Hall) as [Hlo Hhi].
  change (inject_Z 0) with 0 in *.
  assert (Hn : 0 < inject_Z (Z.of_nat (length fs))).
  { change 0 with (inject_Z 0). rewrite <- Zlt_Qlt.
    destruct fs; [done|]. cbn [length]. lia. }
  split.
  - apply Qle_shift_div_l; [done|]. lra.
  - apply Qle_shift_div_r; [done|]. lra.
Qed.

(** X16.  In exact arithmetic the value computed at line 143 from three
    fidelities between 0 and 1 is a probability: it lies between 0 and 1. *)
Theorem success_probability_within_bounds (fa fb fr : Q) :
  0 <= fa <= 1 -> 0 <= fb <= 1 -> 0 <= fr <= 1 ->
  0 <= success_probability fa fb fr <= 1.
Proof.
  intros [Ha0 Ha1] [Hb0 Hb1] [Hr0 Hr1].
  unfold success_probability. cbn [fadd fsub fmul of_int Scalar_Q].
  change (inject_Z 1) with 1.
  assert (H1 : 0 <= fa * fb * fr)
    by (repeat apply Qmult_le_0_compat; lra).
  assert (H2 : 0 <= (1 - fa) * (1 - fb) * (1 - fr))
    by (repeat apply Qmult_le_0_compat; lra).
  assert (H3 : 0 <= fa * (1 - fb)) by (apply Qmult_le_0_compat; lra).
  assert (H4 : 0 <= fb * (1 - fr)) by (apply Qmult_le_0_compat; lra).
  assert (H5 : 0 <= fr * (1 - fa)) by (apply Qmult_le_0_compat; lra).
  split; lra.
Qed.

End ExactArithmetic.

(** ** The success probability on literal inputs *)

Example success_probability_all_high :
  (success_probability (9 # 10) (9 # 10) (9 # 10) == 73 # 100)%Q.
Proof. vm_compute. reflexivity. Qed.

Example success_probability_disagreeing :
  (success_probability (1 # 10) (9 # 10) (1 # 2) == 9 # 100)%Q.
Proof. vm_compute. reflexivity. Qed.

Example route_fidelity_is_one_mean :
  (route_fidelity [9 # 10; 1 # 2; 1 # 10] == 1 # 2)%Q.
Proof. vm_compute. reflexivity. Qed.

(** ** The ledger accessors *)

(** C9.  Accessor equivalence: in every state of the transport layer
    [get_transmitted_qubits] and [get_teleported_qubits] return the same
    sequence of records, the list [self.transmitted_qubits]. *)
Theorem accessors_return_the_ledger {F PS} (w : World F PS) :
  get_transmitted_qubits w = get_teleported_qubits w
  /\ get_teleported_qubits w = transmitted_qubits w.
Proof. split; reflexivity. Qed.

(** ** The properties on concrete worlds *)

(** C5, on a concrete world: two failed passes over a provider without any
    route, for three qubits. *)
Lemma request_transmission_retry_ceiling_witness :
  exists w',
    request_transmission (always_answer None) 1 2 3 (fresh_world net_one_epr tt)
    = (Val false, w')
    /\ calls w' = [RouteRequest 1 2 None; RouteRequest 1 2 None]
    /\ logger w' = [LogNoRouteInAttempt 1; LogNoRouteInAttempt 2;
                    LogTransmissionFailed 3 1 2 2]
    /\ transmitted_qubits w' = [].
Proof.
  apply (proj2 (request_transmission_retry_ceiling
                  (always_answer None) 1 2 3 (fresh_world net_one_epr tt))).
  - intros ps net x y. reflexivity.
  - lia.
Defined.

(** C5 as first stated does not hold: with no qubit to transmit the call
    succeeds although the provider has no route for any request. *)
Lemma retry_ceiling_fails_for_zero_qubits :
  (forall ps (net : Network Q) x y, (always_answer None ps net x y).1 = None)
  /\ (request_transmission (always_answer None) 1 2 0
        (fresh_world net_one_epr tt)).1 = Val true
  /\ (request_transmission (always_answer None) 1 2 0
        (fresh_world net_one_epr tt)).1 <> Val false.
Proof. split; [done|]. split; [reflexivity|discriminate]. Qed.

(** C6, on a concrete world: three qubits over a provider whose third
    request of every batch fails; both passes find two routes and nothing is
    recorded. *)
Lemma request_transmission_all_or_nothing_witness :
  (request_transmission (fails_on 2 3 [1; 2]) 1 2 3
     (fresh_world net_one_epr 0%nat)).1 = Val false
  /\ calls (request_transmission (fails_on 2 3 [1; 2]) 1 2 3
              (fresh_world net_one_epr 0%nat)).2
     = [RouteRequest 1 2 (Some [1; 2]); RouteRequest 1 2 (Some [1; 2]);
        RouteRequest 1 2 None;
        RouteRequest 1 2 (Some [1; 2]); RouteRequest 1 2 (Some [1; 2]);
        RouteRequest 1 2 None]
  /\ transmitted_qubits
       (request_transmission (fails_on 2 3 [1; 2]) 1 2 3
          (fresh_world net_one_epr 0%nat)).2
     = transmitted_qubits (fresh_world net_one_epr 0%nat).
Proof.
  split; [vm_compute; reflexivity|]. split; [vm_compute; reflexivity|].
  apply (proj2 (request_transmission_all_or_nothing
                  (fails_on 2 3 [1; 2]) 1 2 3 (fresh_world net_one_epr 0%nat))).
  vm_compute. reflexivity.
Defined.

(** C3, on a concrete world: two hops holding three pairs of fidelities
    9/10, 1/2 and 1/10, whose mean is 1/2 (the mean of the means of the two
    hops would be 2/5), and two qubits of fidelity 9/10, so a probability of
    41/100: a draw of exactly 41/100 succeeds and a draw of 42/100 fails. *)
Lemma teleportation_outcome_witness :
  (exists f_route p,
     transmitted_qubits
       (teleportation_protocol (always_answer (Some [1; 2; 3])) pick_last
          (41 # 100) 1 3 (fresh_world net_three_pairs tt)).2
     = [TeleportInfo 1 3 [1; 2; 3] (9 # 10) (9 # 10) f_route p
          qubit_a qubit_b true]
     /\ (f_route == 1 # 2)%Q
     /\ (p == 41 # 100)%Q)
  /\ (teleportation_protocol (always_answer (Some [1; 2; 3])) pick_last
        (41 # 100) 1 3 (fresh_world net_three_pairs tt)).1 = Val true
  /\ (teleportation_protocol (always_answer (Some [1; 2; 3])) pick_last
        (42 # 100) 1 3 (fresh_world net_three_pairs tt)).1 = Val false.
Proof.
  assert (Hnd : NoDup (hop_edges [1; 2; 3])).
  { vm_compute. repeat constructor; rewrite ?elem_of_cons, ?elem_of_nil;
      intros Hin; repeat destruct Hin as [Hin|Hin]; try done. }
  assert (Hfull : forall h, h ∈ hops [1; 2; 3] ->
            pool (network (fresh_world net_three_pairs tt)) h.1 h.2 <> []).
  { intros h Hh. cbn in Hh.
    repeat (apply elem_of_cons in Hh as [->|Hh]; [vm_compute; discriminate|]).
    by apply elem_of_nil in Hh. }
  destruct (teleportation_outcome (always_answer (Some [1; 2; 3])) pick_last
              (41 # 100) 1 3 (fresh_world net_three_pairs tt) [1; 2; 3] tt
              qubit_a [qubit_c] qubit_b [])
    as (Hmean & ok & Hiff & _ & Hret & Htotal);
    [reflexivity|vm_compute; reflexivity|vm_compute; reflexivity|lia
    |vm_compute; discriminate|].
  destruct (teleportation_outcome (always_answer (Some [1; 2; 3])) pick_last
              (42 # 100) 1 3 (fresh_world net_three_pairs tt) [1; 2; 3] tt
              qubit_a [qubit_c] qubit_b [])
    as (_ & ok' & Hiff' & _ & _ & Htotal');
    [reflexivity|vm_compute; reflexivity|vm_compute; reflexivity|lia
    |vm_compute; discriminate|].
  assert (Hok : ok = true).
  { apply Hiff. vm_compute. discriminate. }
  assert (Hok' : ok' = false).
  { destruct ok'; [|reflexivity]. exfalso.
    assert (Hle := proj1 Hiff' eq_refl). vm_compute in Hle. by apply Hle. }
  subst ok ok'.
  split_and!.
  - destruct (Hret true (Htotal Hnd Hfull)) as [_ Hledger].
    eexists _, _. split; [exact Hledger|]. split.
    + rewrite Hmean. vm_compute. reflexivity.
    + vm_compute. reflexivity.
  - exact (Htotal Hnd Hfull).
  - exact (Htotal' Hnd Hfull).
Defined.

(** C8, on a concrete world: host 1 holds two qubits and host 3 one. *)
Lemma teleportation_takes_front_and_back_witness :
  exists w2,
    teleportation_protocol (always_answer (Some [1; 2; 3])) pick_last
      (1 # 2) 1 3 (fresh_world net_two_hops tt)
    = teleport_qubits pick_last (1 # 2) 1 3 [1; 2; 3] qubit_a qubit_b w2
    /\ memory (network w2) 1 = [qubit_c]
    /\ memory (network w2) 3 = [].
Proof.
  destruct (proj2 (teleportation_takes_front_and_back
                     (always_answer (Some [1; 2; 3])) pick_last
                     (1 # 2) 1 3 (fresh_world net_two_hops tt) [1; 2; 3] tt
                     qubit_a [qubit_c] qubit_b []
                     eq_refl eq_refl eq_refl))
    as (w2 & Hrun & Hmem & _).
  - intros [Heq _]. discriminate Heq.
  - exists w2. split; [exact Hrun|]. apply Hmem. discriminate.
Defined.

(** *** Where the code departs from the specification *)

(** C1.  A route whose only hop holds no pair: both qubits have been popped
    when the protocol finds no fidelity to average (line 136), and it
    returns [False] without putting them back; the two memories held 2
    qubits before the call and hold 0 after it. *)
Lemma teleportation_without_pairs_drops_both_qubits :
  let w := fresh_world net_no_epr tt in
  let r := teleportation_protocol (always_answer (Some [1; 2])) pick_last
             (1 # 2) 1 2 w in
  r.1 = Val false
  /\ (length (memory (network w) 1) + length (memory (network w) 2) = 2)%nat
  /\ (length (memory (network r.2) 1) + length (memory (network r.2) 2) = 0)%nat.
Proof. vm_compute. auto. Qed.

(** C2.  The same call: it returns [False] because no fidelity was
    collected, having appended nothing to the ledger, and both memories are
    no longer what they were at the start of the call. *)
Lemma teleportation_without_pairs_changes_memories :
  let w := fresh_world net_no_epr tt in
  let r := teleportation_protocol (always_answer (Some [1; 2])) pick_last
             (1 # 2) 1 2 w in
  r.1 = Val false
  /\ logger r.2 = [LogNoEprOnRoute 1 2]
  /\ transmitted_qubits r.2 = []
  /\ memory (network w) 1 = [qubit_a] /\ memory (network r.2) 1 = []
  /\ memory (network w) 2 = [qubit_b] /\ memory (network r.2) 2 = []
  /\ network r.2 <> network w.
Proof.
  vm_compute. split_and!; auto. discriminate.
Qed.

(** C4.  A route of two hops of which only the first holds a pair: the
    fidelities collected are not empty, the pair of the first hop is
    removed, and [remove_epr] fails on the second hop. *)
Lemma teleportation_with_an_empty_hop_raises :
  let w := fresh_world net_one_epr tt in
  let r := teleportation_protocol (always_answer (Some [1; 2; 3])) pick_last
             (1 # 2) 1 2 w in
  length (hops [1; 2; 3]) = 2%nat
  /\ route_pairs (network w) [1; 2; 3] = [epr_12]
  /\ r.1 = Exc (NoEprAvailable 2 3)
  /\ pairs_on (network w) (hop_edges [1; 2; 3]) = 1%nat
  /\ pairs_on (network r.2) (hop_edges [1; 2; 3]) = 0%nat
  /\ transmitted_qubits r.2 = [].
Proof. vm_compute. auto 10. Qed.

(** *** More of the properties on concrete worlds *)

(** X2, on a concrete world: three qubits over the one edge that holds a
    pair. *)
Lemma request_transmission_routes_are_feasible_witness :
  exists routes,
    transmitted_qubits
      (request_transmission (always_answer (Some [1; 2])) 1 2 3
         (fresh_world net_one_epr tt)).2
    = transmitted_qubits (fresh_world net_one_epr tt)
        ++ map (fun r => TransmissionInfo r 1 2) routes
    /\ Forall
         (fun r =>
            Forall
              (fun h =>
                 pool (network
                         (request_transmission (always_answer (Some [1; 2])) 1 2 3
                            (fresh_world net_one_epr tt)).2) h.1 h.2 <> [])
              (hops r))
         routes.
Proof.
  apply (request_transmission_routes_are_feasible
           (always_answer (Some [1; 2])) 1 2 3 (fresh_world net_one_epr tt)).
  vm_compute. reflexivity.
Defined.

(** X3, on a concrete world: two qubits over a provider whose second request
    fails; the first pass is given one route and fails, the second is given
    two and succeeds. *)
Lemma request_transmission_records_last_pass_witness :
  exists routes before,
    Z.of_nat (length routes) = 2
    /\ transmitted_qubits
         (request_transmission (fails_on 1 100 [1; 2]) 1 2 2
            (fresh_world net_one_epr 0%nat)).2
       = transmitted_qubits (fresh_world net_one_epr 0%nat)
           ++ map (fun r => TransmissionInfo r 1 2) routes
    /\ calls
         (request_transmission (fails_on 1 100 [1; 2]) 1 2 2
            (fresh_world net_one_epr 0%nat)).2
       = calls (fresh_world net_one_epr 0%nat) ++ before
           ++ route_answers 1 2 routes
           ++ map (fun h => EprRead h.1 h.2) (flat_map hops routes).
Proof.
  apply (request_transmission_records_last_pass
           (fails_on 1 100 [1; 2]) 1 2 2 (fresh_world net_one_epr 0%nat)).
  vm_compute. reflexivity.
Defined.

(** X4, on a concrete world: a request for -1 qubit. *)
Lemma request_transmission_negative_count_witness :
  request_transmission (always_answer (Some [1; 2])) 1 2 (-1)
    (fresh_world net_one_epr tt)
  = (Val false, given_up 1 2 (-1) 2 (fresh_world net_one_epr tt)).
Proof.
  apply (request_transmission_negative_count
           (always_answer (Some [1; 2])) 1 2 (-1) (fresh_world net_one_epr tt)).
  lia.
Defined.

(** X5, on a concrete world: two qubits over the one edge that holds a
    pair. *)
Lemma request_transmission_first_pass_witness :
  exists routes w',
    request_transmission (always_answer (Some [1; 2])) 1 2 2
      (fresh_world net_one_epr tt) = (Val true, w')
    /\ Z.of_nat (length routes) = 2
    /\ transmitted_qubits w' =
         transmitted_qubits (fresh_world net_one_epr tt)
           ++ map (fun r => TransmissionInfo r 1 2) routes
    /\ calls w' = calls (fresh_world net_one_epr tt) ++ route_answers 1 2 routes
                    ++ map (fun h => EprRead h.1 h.2) (flat_map hops routes)
    /\ logger w' = logger (fresh_world net_one_epr tt)
                     ++ [LogTransmissionDone 2 1 2].
Proof.
  apply (request_transmission_first_pass
           (always_answer (Some [1; 2])) 1 2 2 (fresh_world net_one_epr tt)).
  - lia.
  - intros []. exists [1; 2], tt. split; [reflexivity|].
    repeat constructor. vm_compute. discriminate.
Defined.

(** X6, on a concrete world: one hop without any pair. *)
Lemma teleportation_without_pairs_witness :
  exists w',
    teleportation_protocol (always_answer (Some [1; 2])) pick_last (1 # 2) 1 2
      (fresh_world net_no_epr tt) = (Val false, w')
    /\ memory (network w') 1 = []
    /\ memory (network w') 2 = []
    /\ eprs (network w') = eprs (network (fresh_world net_no_epr tt))
    /\ transmitted_qubits w' = transmitted_qubits (fresh_world net_no_epr tt)
    /\ logger w' = logger (fresh_world net_no_epr tt) ++ [LogNoEprOnRoute 1 2]
    /\ calls w' = calls (fresh_world net_no_epr tt)
                    ++ RouteRequest 1 2 (Some [1; 2])
                    :: map (fun h => EprRead h.1 h.2) (hops [1; 2]).
Proof.
  apply (teleportation_without_pairs (always_answer (Some [1; 2])) pick_last
           (1 # 2) 1 2 (fresh_world net_no_epr tt) [1; 2] tt
           qubit_a [] qubit_b []).
  - reflexivity.
  - vm_compute. reflexivity.
  - vm_compute. reflexivity.
  - lia.
  - vm_compute. reflexivity.
Defined.

(** X8, on a concrete world: two hops that hold one pair each. *)
Lemma teleportation_reads_then_removes_witness :
  calls (teleportation_protocol (always_answer (Some [1; 2; 3])) pick_last
           (1 # 2) 1 3 (fresh_world net_two_hops tt)).2
  = calls (fresh_world net_two_hops tt) ++ RouteRequest 1 3 (Some [1; 2; 3])
      :: map (fun h => EprRead h.1 h.2) (hops [1; 2; 3])
      ++ map (fun h => EprRemove h.1 h.2) (hops [1; 2; 3]).
Proof.
  apply (teleportation_reads_then_removes (always_answer (Some [1; 2; 3]))
           pick_last (1 # 2) 1 3 (fresh_world net_two_hops tt) [1; 2; 3] tt
           qubit_a [qubit_c] qubit_b []).
  - reflexivity.
  - vm_compute. reflexivity.
  - vm_compute. reflexivity.
  - lia.
  - discriminate.
  - vm_compute. repeat constructor; rewrite ?elem_of_cons, ?elem_of_nil;
      intros Hin; repeat destruct Hin as [Hin|Hin]; try done.
  - intros h Hh. cbn in Hh.
    repeat (apply elem_of_cons in Hh as [->|Hh]; [vm_compute; discriminate|]).
    by apply elem_of_nil in Hh.
Defined.

(** X11, on a concrete world: two hops of which the second holds no pair. *)
Lemma teleportation_raises_at_first_empty_hop_witness :
  (teleportation_protocol (always_answer (Some [1; 2; 3])) pick_last
     (1 # 2) 1 2 (fresh_world net_one_epr tt)).1
  = Exc (NoEprAvailable 2 3)
  /\ transmitted_qubits
       (teleportation_protocol (always_answer (Some [1; 2; 3])) pick_last
          (1 # 2) 1 2 (fresh_world net_one_epr tt)).2
     = transmitted_qubits (fresh_world net_one_epr tt).
Proof.
  destruct (teleportation_raises_at_first_empty_hop
              (always_answer (Some [1; 2; 3])) pick_last (1 # 2) 1 2
              (fresh_world net_one_epr tt) [1; 2; 3] tt
              qubit_a [] qubit_b [] [(1, 2)] (2, 3) [])
    as (Hexc & Hl & _).
  - reflexivity.
  - vm_compute. reflexivity.
  - vm_compute. reflexivity.
  - lia.
  - vm_compute. discriminate.
  - reflexivity.
  - vm_compute. repeat constructor; rewrite ?elem_of_cons, ?elem_of_nil;
      intros Hin; repeat destruct Hin as [Hin|Hin]; try done.
  - intros h Hh. apply list_elem_of_singleton in Hh as ->.
    vm_compute. discriminate.
  - vm_compute. reflexivity.
  - split; [exact Hexc|exact Hl].
Defined.

(** X12, on a concrete world: a provider without any route. *)
Lemma teleportation_fails_fast_witness :
  exists w',
    teleportation_protocol (always_answer None) pick_last (1 # 2) 1 2
      (fresh_world net_one_epr tt) = (Val false, w')
    /\ network w' = network (fresh_world net_one_epr tt)
    /\ transmitted_qubits w' = transmitted_qubits (fresh_world net_one_epr tt)
    /\ calls w' = calls (fresh_world net_one_epr tt) ++ [RouteRequest 1 2 None].
Proof.
  apply (teleportation_fails_fast (always_answer None) pick_last (1 # 2) 1 2
           (fresh_world net_one_epr tt) None tt).
  - reflexivity.
  - by left.
Defined.

(** X13, on a concrete world: a draw of 1/2 against a probability of 73/100
    succeeds. *)
Lemma teleportation_settles_memories_witness :
  memory (network (teleportation_protocol (always_answer (Some [1; 2])) pick_last
                     (1 # 2) 1 2 (fresh_world net_one_epr tt)).2) 1 = []
  /\ memory (network (teleportation_protocol (always_answer (Some [1; 2])) pick_last
                        (1 # 2) 1 2 (fresh_world net_one_epr tt)).2) 2
     = [qubit_a].
Proof.
  destruct (teleportation_settles_memories (always_answer (Some [1; 2])) pick_last
              (1 # 2) 1 2 (fresh_world net_one_epr tt) [1; 2] tt
              qubit_a [] qubit_b []) as [Hsource Hdest].
  - reflexivity.
  - vm_compute. reflexivity.
  - vm_compute. reflexivity.
  - lia.
  - vm_compute. discriminate.
  - rewrite Hsource, Hdest. split; vm_compute; reflexivity.
Defined.

(** X14, on a concrete world: two hops that hold one pair each. *)
Lemma teleportation_consumes_one_pair_per_hop_witness :
  Nat.add
    (pairs_on
       (network (teleportation_protocol (always_answer (Some [1; 2; 3]))
                   pick_last (1 # 2) 1 3 (fresh_world net_two_hops tt)).2)
       (hop_edges [1; 2; 3]))
    (length (hops [1; 2; 3]))
  = pairs_on (network (fresh_world net_two_hops tt)) (hop_edges [1; 2; 3]).
Proof.
  apply (teleportation_consumes_one_pair_per_hop (always_answer (Some [1; 2; 3]))
           pick_last (1 # 2) 1 3 (fresh_world net_two_hops tt) [1; 2; 3] tt
           qubit_a [qubit_c] qubit_b []).
  - reflexivity.
  - vm_compute. reflexivity.
  - vm_compute. reflexivity.
  - lia.
  - discriminate.
  - vm_compute. repeat constructor; rewrite ?elem_of_cons, ?elem_of_nil;
      intros Hin; repeat destruct Hin as [Hin|Hin]; try done.
  - intros h Hh. cbn in Hh.
    repeat (apply elem_of_cons in Hh as [->|Hh]; [vm_compute; discriminate|]).
    by apply elem_of_nil in Hh.
Defined.

(** X15, on three fidelities. *)
Lemma route_fidelity_within_bounds_witness :
  (0 <= route_fidelity [9 # 10; 1 # 2; 1 # 10] <= 1)%Q.
Proof.
  apply route_fidelity_within_bounds.
  - discriminate.
  - repeat constructor; vm_compute; discriminate.
Defined.

(** X16, on the fidelities 1/10, 9/10 and 1/2. *)
Lemma success_probability_within_bounds_witness :
  (0 <= success_probability (1 # 10) (9 # 10) (1 # 2) <= 1)%Q.
Proof.
  apply success_probability_within_bounds; split; vm_compute; discriminate.
Defined.
